(** * Group logic of the Ed25519 curve: extended and projective points

    A shallow embedding of [package group] (extended and projective
    twisted-Edwards points, their conversions, the unified addition and the
    doubling formulas) over the prime field GF(2^255 - 19), together with the
    properties of the package's specification.

    Layout:
    - [Primality]: a Pocklington-style certificate checker, used to show that
      the field modulus is prime;
    - [radix51]: the field element type the package imports;
    - [group]: the point types and the methods as functions on values;
    - [mem]: the same methods as the Go code runs them, on a store of
      point objects addressed by pointers, with a count of field operations;
    - [legacy]: the variants kept in [internal/group/ge.go];
    - the properties. *)

From Stdlib Require Import ZArith Lia List Zmod.Zmod Zdivisibility Znumtheory Ring.
From stdpp Require Import list.
Import ListNotations.
#[local] Open Scope Z_scope.

(** ** Primality certificates *)

Module Primality.

(** Trial division: [trial fuel d n] tries the divisors [d, d+1, ...] of [n]
    up to the square root of [n]. *)
Fixpoint trial (fuel : nat) (d n : Z) : bool :=
  match fuel with
  | O => false
  | S f => if n <? d * d then true
           else if n mod d =? 0 then false
           else trial f (d + 1) n
  end.

(** One line of a certificate for [N]: a prime [q] with the element
    [b = a^k mod N], which must have order exactly [q] modulo every prime
    factor of [N]. *)
Definition order_ok (N : Z) (c : Z * Z * Z) : bool :=
  let '(q, a, k) := c in
  let b := Zmod.pow (Zmod.of_Z N a) k in
  (Zmod.to_Z (Zmod.pow b q) =? 1) && (Z.gcd (Zmod.to_Z b - 1) N =? 1).

Fixpoint coprime_chain (qs : list Z) : bool :=
  match qs with
  | [] => true
  | q :: qs' => (Z.gcd q (fold_right Z.mul 1 qs') =? 1) && coprime_chain qs'
  end.

Definition pock_check (N : Z) (cert : list (Z * Z * Z)) : bool :=
  let qs := map (fun c => fst (fst c)) cert in
  let F := fold_right Z.mul 1 qs in
  (1 <? N) && forallb (order_ok N) cert && coprime_chain qs
  && (0 <? F) && (N <? (F + 1) * (F + 1)).

Definition q4 : Z := 1919519569386763.
Definition q2 : Z := 75445702479781427272750846543864801.
Definition q1 : Z :=
  74058212732561358302231226437062788676166966415465897661863160754340907.

End Primality.

(** ** The field element type *)

Module radix51.

(** Modelled from the spec: the package [radix51] (the type [FieldElement]
    with [Add], [Sub], [Neg], [Mul], [Square], [Invert], [Zero], [One],
    [Set], [FromBig], [ToBig] and the constant [Two]) is imported by the
    source and is not part of it.  The specification describes a field
    element as a residue modulo [p = 2^255 - 19] that obeys the field
    axioms, converts to and from arbitrary-precision integers with a
    canonical result in [[0, p)], and whose inversion is Fermat-based, so
    that it sends zero to zero.  A field element is modelled by its canonical
    residue; the limbs of the radix-2^51 representation appear only in
    [of_limbs], which reads the array literals of the source. *)
Definition p : Z := 2 ^ 255 - 19.

Abbreviation FieldElement := (Zmod p).

Definition Zero : FieldElement := Zmod.zero.
Definition One : FieldElement := Zmod.one.
Definition Two : FieldElement := Zmod.of_Z p 2.

Definition Add (a b : FieldElement) : FieldElement := Zmod.add a b.
Definition Sub (a b : FieldElement) : FieldElement := Zmod.sub a b.
Definition Neg (a : FieldElement) : FieldElement := Zmod.opp a.
Definition Mul (a b : FieldElement) : FieldElement := Zmod.mul a b.
Definition Square (a : FieldElement) : FieldElement := Zmod.mul a a.

(** Fermat inversion: [z^(p-2)]. *)
Definition Invert (z : FieldElement) : FieldElement := Zmod.pow z (p - 2).

(** [Set] of the source (a copy); [Set] is reserved in Rocq. *)
Definition Set_ (a : FieldElement) : FieldElement := a.

Definition FromBig (x : Z) : FieldElement := Zmod.of_Z p x.
Definition ToBig (a : FieldElement) : Z := Zmod.to_Z a.

(** A [FieldElement{l0, l1, l2, l3, l4}] literal: five limbs in radix 2^51. *)
Definition of_limbs (l0 l1 l2 l3 l4 : Z) : FieldElement :=
  Zmod.of_Z p (l0 + 2 ^ 51 * l1 + 2 ^ 102 * l2 + 2 ^ 153 * l3 + 2 ^ 204 * l4).

End radix51.

(** ** Points as values *)

Module group.
Import radix51.

(** [D] is a constant in the curve equation. *)
Definition D : FieldElement :=
  of_limbs 929955233495203 466365720129213
           1662059464998953 2033849074728123 1442794654840575.

Definition twoD : FieldElement :=
  of_limbs 1859910466990425 932731440258426
           1072319116312658 1815898335770999 633789495995903.

(** [struct { X, Y, Z, T radix51.FieldElement }]; the fields carry a prefix
    because [Z] names the integers. *)
Record ExtendedGroupElement : Type := mkExtended {
  eX : FieldElement;
  eY : FieldElement;
  eZ : FieldElement;
  eT : FieldElement
}.

(** [struct { X, Y, Z radix51.FieldElement }]. *)
Record ProjectiveGroupElement : Type := mkProjective {
  pX : FieldElement;
  pY : FieldElement;
  pZ : FieldElement
}.

(** Assignment to one field of a struct. *)
Definition set_eX (a : FieldElement) (v : ExtendedGroupElement) :=
  mkExtended a (eY v) (eZ v) (eT v).
Definition set_eY (a : FieldElement) (v : ExtendedGroupElement) :=
  mkExtended (eX v) a (eZ v) (eT v).
Definition set_eZ (a : FieldElement) (v : ExtendedGroupElement) :=
  mkExtended (eX v) (eY v) a (eT v).
Definition set_eT (a : FieldElement) (v : ExtendedGroupElement) :=
  mkExtended (eX v) (eY v) (eZ v) a.

Definition set_pX (a : FieldElement) (v : ProjectiveGroupElement) :=
  mkProjective a (pY v) (pZ v).
Definition set_pY (a : FieldElement) (v : ProjectiveGroupElement) :=
  mkProjective (pX v) a (pZ v).
Definition set_pZ (a : FieldElement) (v : ProjectiveGroupElement) :=
  mkProjective (pX v) (pY v) a.

(** The zero value of each struct ([var r ExtendedGroupElement]). *)
Definition zeroExtended : ExtendedGroupElement := mkExtended Zero Zero Zero Zero.
Definition zeroProjective : ProjectiveGroupElement := mkProjective Zero Zero Zero.

Module Extended.

(** [func (v *ExtendedGroupElement) FromAffine(x, y *big.Int)] *)
Definition FromAffine (x y : Z) : ExtendedGroupElement :=
  let vX := FromBig x in
  let vY := FromBig y in
  let vT := Mul vX vY in
  let vZ := One in
  {| eX := vX; eY := vY; eZ := vZ; eT := vT |}.

(** [func (v *ExtendedGroupElement) ToAffine()], returning two big integers *)
Definition ToAffine (v : ExtendedGroupElement) : Z * Z :=
  let zinv := Invert (eZ v) in
  let x := Mul (eX v) zinv in
  let y := Mul (eY v) zinv in
  (ToBig x, ToBig y).

(** [func (v *ExtendedGroupElement) ToProjective() *ProjectiveGroupElement] *)
Definition ToProjective (v : ExtendedGroupElement) : ProjectiveGroupElement :=
  let p := zeroProjective in
  let p := set_pX (Set_ (eX v)) p in
  let p := set_pY (Set_ (eY v)) p in
  let p := set_pZ (Set_ (eZ v)) p in
  p.

(** [func (v *ExtendedGroupElement) Zero() *ExtendedGroupElement] *)
Definition Zero : ExtendedGroupElement :=
  {| eX := radix51.Zero; eY := One; eZ := One; eT := radix51.Zero |}.

(** [func (v *ExtendedGroupElement) Add(p1, p2 *ExtendedGroupElement)],
    "add-2008-hwcd-3". *)
Definition Add (p1 p2 : ExtendedGroupElement) : ExtendedGroupElement :=
  let tmp1 := Sub (eY p1) (eX p1) in
  let tmp2 := Sub (eY p2) (eX p2) in
  let A := Mul tmp1 tmp2 in
  let tmp1 := radix51.Add (eY p1) (eX p1) in
  let tmp2 := radix51.Add (eY p2) (eX p2) in
  let B := Mul tmp1 tmp2 in
  let tmp1 := Mul (eT p1) (eT p2) in
  let C := Mul tmp1 twoD in
  let tmp1 := Mul (eZ p1) (eZ p2) in
  let D := radix51.Add tmp1 tmp1 in
  let E := Sub B A in
  let F := Sub D C in
  let G := radix51.Add D C in
  let H := radix51.Add B A in
  {| eX := Mul E F; eY := Mul G H; eT := Mul E H; eZ := Mul F G |}.

(** [func (v *ExtendedGroupElement) Double() *ExtendedGroupElement],
    the dedicated doubling of HWCD section 3.3. *)
Definition Double (v : ExtendedGroupElement) : ExtendedGroupElement :=
  let A := Square (eX v) in
  let B := Square (eY v) in
  let C := Square (eZ v) in
  let C := radix51.Add C C in
  let D := Neg A in
  let t0 := radix51.Add (eX v) (eY v) in
  let t0 := Square t0 in
  let E := Sub t0 A in
  let E := Sub E B in
  let G := radix51.Add D B in
  let F := Sub G C in
  let H := Sub D B in
  {| eX := Mul E F; eY := Mul G H; eT := Mul E H; eZ := Mul F G |}.

End Extended.

Module Projective.

(** [func (v *ProjectiveGroupElement) FromAffine(x, y *big.Int)];
    the last statement of the source is [v.Z.Zero()]. *)
Definition FromAffine (x y : Z) : ProjectiveGroupElement :=
  let vX := FromBig x in
  let vY := FromBig y in
  let vZ := radix51.Zero in
  {| pX := vX; pY := vY; pZ := vZ |}.

(** [func (v *ProjectiveGroupElement) ToAffine()], returning two big integers *)
Definition ToAffine (v : ProjectiveGroupElement) : Z * Z :=
  let zinv := Invert (pZ v) in
  let x := Mul (pX v) zinv in
  let y := Mul (pY v) zinv in
  (ToBig x, ToBig y).

(** [func (v *ProjectiveGroupElement) ToExtended() *ExtendedGroupElement] *)
Definition ToExtended (v : ProjectiveGroupElement) : ExtendedGroupElement :=
  let r := zeroExtended in
  let r := set_eX (Mul (pX v) (pZ v)) r in
  let r := set_eY (Mul (pY v) (pZ v)) r in
  let r := set_eT (Mul (pX v) (pY v)) r in
  let r := set_eZ (Square (pZ v)) r in
  r.

(** [func (v *ProjectiveGroupElement) Zero() *ProjectiveGroupElement] *)
Definition Zero : ProjectiveGroupElement :=
  {| pX := radix51.Zero; pY := One; pZ := One |}.

(** [func (v *ProjectiveGroupElement) DoubleZ1() *ProjectiveGroupElement],
    "mdbl-2008-bbjlp"; [p] and [q] are the two local structs. *)
Definition DoubleZ1 (v : ProjectiveGroupElement) : ProjectiveGroupElement :=
  let q := zeroProjective in
  let p := v in
  let t0 := Square (pX p) in
  let t1 := Square (pY p) in
  let p := set_pZ (radix51.Add (pX p) (pY p)) p in
  let q := set_pX (Square (pZ p)) q in
  let q := set_pZ (Neg t0) q in
  let p := set_pX (radix51.Add (pZ q) t1) p in
  let p := set_pY (Sub (pX q) t0) p in
  let p := set_pY (Sub (pY p) t1) p in
  let p := set_pZ (Sub (pX p) Two) p in
  let q := set_pX (Mul (pY p) (pZ p)) q in
  let p := set_pY (Sub (pZ q) t1) p in
  let q := set_pY (Mul (pX p) (pY p)) q in
  let q := set_pZ (Square (pX p)) q in
  let q := set_pZ (Sub (pZ q) (pX p)) q in
  let q := set_pZ (Sub (pZ q) (pX p)) q in
  q.

End Projective.

(** The curve equation [a*x^2 + y^2 = 1 + d*x^2*y^2] with [a = -1], on an
    affine pair of integers. *)
Definition on_curve (xy : Z * Z) : Prop :=
  let x := FromBig (fst xy) in
  let y := FromBig (snd xy) in
  radix51.Add (Neg (Square x)) (Square y)
  = radix51.Add One (Mul D (Mul (Square x) (Square y))).

(** The cross-invariant of extended coordinates, [T*Z = X*Y]. *)
Definition cross (v : ExtendedGroupElement) : Prop :=
  Mul (eT v) (eZ v) = Mul (eX v) (eY v).

(** A valid extended point: the cross-invariant holds and the affine point
    it stands for lies on the curve. *)
Definition valid (v : ExtendedGroupElement) : Prop :=
  cross v /\ on_curve (Extended.ToAffine v).

Definition valid_projective (v : ProjectiveGroupElement) : Prop :=
  on_curve (Projective.ToAffine v).

(** The base point of Ed25519, used as a concrete input. *)
Definition Bx : Z :=
  15112221349535400772501151409588531511454012693041857206046113283949847762202.
Definition By : Z :=
  46316835694926478169428394003475163141307993866256225615783033603165251855960.

(** The field element 4. *)
Definition four : FieldElement :=
  radix51.Add (radix51.Add One One) (radix51.Add One One).

(** The dedicated doubling as the specification words it, with
    [C = 2*Z^2] and [E = (X+Y)^2 - A - B]. *)
Definition Double_formula (v : ExtendedGroupElement) : ExtendedGroupElement :=
  let A := Square (eX v) in
  let B := Square (eY v) in
  let C := Mul Two (Square (eZ v)) in
  let D := Neg A in
  let E := Sub (Sub (Square (radix51.Add (eX v) (eY v))) A) B in
  let G := radix51.Add D B in
  let F := Sub G C in
  let H := Sub D B in
  {| eX := Mul E F; eY := Mul G H; eT := Mul E H; eZ := Mul F G |}.

(** The base point as an extended and as a projective point. *)
Definition B_extended : ExtendedGroupElement := Extended.FromAffine Bx By.
Definition B_projective : ProjectiveGroupElement :=
  mkProjective (FromBig Bx) (FromBig By) One.

(** A square root of [-1] in the field, [2^((p-1)/4)]. *)
Definition sqrt_m1 : FieldElement :=
  FromBig
    19681161376707505956807079304988542015446066515923890162744021073123829784752.

(** The curve equation on two field elements, solved for the term in [d]:
    [d*x^2*y^2 = y^2 - x^2 - 1]. *)
Definition curve (x y : FieldElement) : Prop :=
  Mul (Mul D (Mul x x)) (Mul y y) = Sub (Sub (Mul y y) (Mul x x)) One.

(** The addition law of the twisted Edwards curve with [a = -1] on affine
    pairs: [x3 = (x1*y2 + x2*y1) / (1 + d*x1*x2*y1*y2)] and
    [y3 = (y1*y2 + x1*x2) / (1 - d*x1*x2*y1*y2)]. *)
Definition edwards_add (a1 a2 : Z * Z) : Z * Z :=
  let x1 := FromBig (fst a1) in
  let y1 := FromBig (snd a1) in
  let x2 := FromBig (fst a2) in
  let y2 := FromBig (snd a2) in
  let e := Mul D (Mul (Mul x1 x2) (Mul y1 y2)) in
  (ToBig (Mul (radix51.Add (Mul x1 y2) (Mul x2 y1))
              (Invert (radix51.Add One e))),
   ToBig (Mul (radix51.Add (Mul y1 y2) (Mul x1 x2))
              (Invert (Sub One e)))).

(** A point with every coordinate multiplied by [c]. *)
Definition scaleExtended (c : FieldElement) (v : ExtendedGroupElement)
  : ExtendedGroupElement :=
  {| eX := Mul c (eX v); eY := Mul c (eY v);
     eZ := Mul c (eZ v); eT := Mul c (eT v) |}.

End group.

(** ** Points as objects in memory *)

Module mem.
Import radix51 group.

(** The number of field operations performed, by kind. *)
Record opcount : Type := mkOps {
  muls : nat;
  squares : nat;
  inverts : nat;
  adds : nat;
  subs : nat;
  negs : nat
}.

Definition ops_plus (a b : opcount) : opcount :=
  mkOps (muls a + muls b) (squares a + squares b) (inverts a + inverts b)
        (adds a + adds b) (subs a + subs b) (negs a + negs b).

Definition no_ops : opcount := mkOps 0 0 0 0 0 0.
Definition one_mul : opcount := mkOps 1 0 0 0 0 0.
Definition one_square : opcount := mkOps 0 1 0 0 0 0.
Definition one_invert : opcount := mkOps 0 0 1 0 0 0.
Definition one_add : opcount := mkOps 0 0 0 1 0 0.
Definition one_sub : opcount := mkOps 0 0 0 0 1 0.
Definition one_neg : opcount := mkOps 0 0 0 0 0 1.

(** A pointer is an index into the arena of objects of its type; an index
    past the end of the arena is a nil or dangling pointer. *)
Definition ptr : Type := nat.

Record store : Type := mkStore {
  exts : list ExtendedGroupElement;
  projs : list ProjectiveGroupElement;
  cost : opcount
}.

(** Computations on the store; [None] is a nil-pointer panic. *)
Definition M (A : Type) : Type := store -> option (A * store).

Definition ret {A : Type} (a : A) : M A := fun s => Some (a, s).

Definition bind {A B : Type} (m : M A) (k : A -> M B) : M B :=
  fun s => match m s with
           | Some (a, s') => k a s'
           | None => None
           end.

Notation "x <- m ;; k" := (bind m (fun x => k))
  (at level 100, m at next level, right associativity).
Notation "m ;; k" := (bind m (fun _ => k))
  (at level 100, right associativity).

Definition charge (c : opcount) : M unit :=
  fun s => Some (tt, mkStore (exts s) (projs s) (ops_plus (cost s) c)).

(** Operands of a field operation: a local variable, or a field of a struct
    behind a pointer. *)
Definition val (a : FieldElement) : M FieldElement := ret a.

Definition loadE (l : ptr) (f : ExtendedGroupElement -> FieldElement)
  : M FieldElement :=
  fun s => match exts s !! l with
           | Some e => Some (f e, s)
           | None => None
           end.

Definition loadP (l : ptr) (f : ProjectiveGroupElement -> FieldElement)
  : M FieldElement :=
  fun s => match projs s !! l with
           | Some e => Some (f e, s)
           | None => None
           end.

(** [p = *v]: the struct behind a pointer, copied into a local. *)
Definition derefP (l : ptr) : M ProjectiveGroupElement :=
  fun s => match projs s !! l with
           | Some e => Some (e, s)
           | None => None
           end.

(** The destination of a field operation: the operands are read, the result
    is computed, then the field of the struct behind [l] is overwritten. *)
Definition storeE (l : ptr)
  (set : FieldElement -> ExtendedGroupElement -> ExtendedGroupElement)
  (m : M FieldElement) : M unit :=
  a <- m ;;
  fun s => match exts s !! l with
           | Some e => Some (tt, mkStore (<[l := set a e]> (exts s))
                                         (projs s) (cost s))
           | None => None
           end.

Definition storeP (l : ptr)
  (set : FieldElement -> ProjectiveGroupElement -> ProjectiveGroupElement)
  (m : M FieldElement) : M unit :=
  a <- m ;;
  fun s => match projs s !! l with
           | Some e => Some (tt, mkStore (exts s)
                                         (<[l := set a e]> (projs s)) (cost s))
           | None => None
           end.

(** [var r ExtendedGroupElement] whose address is returned: a fresh, zeroed
    object at the end of the arena. *)
Definition newE : M ptr :=
  fun s => Some (length (exts s),
                 mkStore (exts s ++ [zeroExtended]) (projs s) (cost s)).

Definition newP : M ptr :=
  fun s => Some (length (projs s),
                 mkStore (exts s) (projs s ++ [zeroProjective]) (cost s)).

(** The field operations, counted. *)
Definition op1 (c : opcount) (f : FieldElement -> FieldElement)
  (a : M FieldElement) : M FieldElement :=
  x <- a ;; charge c ;; ret (f x).

Definition op2 (c : opcount) (f : FieldElement -> FieldElement -> FieldElement)
  (a b : M FieldElement) : M FieldElement :=
  x <- a ;; y <- b ;; charge c ;; ret (f x y).

Definition fAdd := op2 one_add radix51.Add.
Definition fSub := op2 one_sub radix51.Sub.
Definition fMul := op2 one_mul radix51.Mul.
Definition fNeg := op1 one_neg radix51.Neg.
Definition fSquare := op1 one_square radix51.Square.
Definition fInvert := op1 one_invert radix51.Invert.
Definition fSet (a : M FieldElement) : M FieldElement :=
  x <- a ;; ret (Set_ x).

Module Extended.

Definition FromAffine (v : ptr) (x y : Z) : M unit :=
  storeE v set_eX (val (FromBig x)) ;;
  storeE v set_eY (val (FromBig y)) ;;
  storeE v set_eT (fMul (loadE v eX) (loadE v eY)) ;;
  storeE v set_eZ (val One).

Definition ToAffine (v : ptr) : M (Z * Z) :=
  zinv <- fInvert (loadE v eZ) ;;
  x <- fMul (loadE v eX) (val zinv) ;;
  y <- fMul (loadE v eY) (val zinv) ;;
  ret (ToBig x, ToBig y).

Definition ToProjective (v : ptr) : M ptr :=
  p <- newP ;;
  storeP p set_pX (fSet (loadE v eX)) ;;
  storeP p set_pY (fSet (loadE v eY)) ;;
  storeP p set_pZ (fSet (loadE v eZ)) ;;
  ret p.

Definition Zero (v : ptr) : M ptr :=
  storeE v set_eX (val radix51.Zero) ;;
  storeE v set_eY (val One) ;;
  storeE v set_eZ (val One) ;;
  storeE v set_eT (val radix51.Zero) ;;
  ret v.

Definition Add (v p1 p2 : ptr) : M ptr :=
  tmp1 <- fSub (loadE p1 eY) (loadE p1 eX) ;;
  tmp2 <- fSub (loadE p2 eY) (loadE p2 eX) ;;
  A <- fMul (val tmp1) (val tmp2) ;;
  tmp1 <- fAdd (loadE p1 eY) (loadE p1 eX) ;;
  tmp2 <- fAdd (loadE p2 eY) (loadE p2 eX) ;;
  B <- fMul (val tmp1) (val tmp2) ;;
  tmp1 <- fMul (loadE p1 eT) (loadE p2 eT) ;;
  C <- fMul (val tmp1) (val twoD) ;;
  tmp1 <- fMul (loadE p1 eZ) (loadE p2 eZ) ;;
  D <- fAdd (val tmp1) (val tmp1) ;;
  E <- fSub (val B) (val A) ;;
  F <- fSub (val D) (val C) ;;
  G <- fAdd (val D) (val C) ;;
  H <- fAdd (val B) (val A) ;;
  storeE v set_eX (fMul (val E) (val F)) ;;
  storeE v set_eY (fMul (val G) (val H)) ;;
  storeE v set_eT (fMul (val E) (val H)) ;;
  storeE v set_eZ (fMul (val F) (val G)) ;;
  ret v.

Definition Double (v : ptr) : M ptr :=
  A <- fSquare (loadE v eX) ;;
  B <- fSquare (loadE v eY) ;;
  C <- fSquare (loadE v eZ) ;;
  C <- fAdd (val C) (val C) ;;
  D <- fNeg (val A) ;;
  t0 <- fAdd (loadE v eX) (loadE v eY) ;;
  t0 <- fSquare (val t0) ;;
  E <- fSub (val t0) (val A) ;;
  E <- fSub (val E) (val B) ;;
  G <- fAdd (val D) (val B) ;;
  F <- fSub (val G) (val C) ;;
  H <- fSub (val D) (val B) ;;
  storeE v set_eX (fMul (val E) (val F)) ;;
  storeE v set_eY (fMul (val G) (val H)) ;;
  storeE v set_eT (fMul (val E) (val H)) ;;
  storeE v set_eZ (fMul (val F) (val G)) ;;
  ret v.

End Extended.

Module Projective.

Definition FromAffine (v : ptr) (x y : Z) : M unit :=
  storeP v set_pX (val (FromBig x)) ;;
  storeP v set_pY (val (FromBig y)) ;;
  storeP v set_pZ (val radix51.Zero).

Definition ToAffine (v : ptr) : M (Z * Z) :=
  zinv <- fInvert (loadP v pZ) ;;
  x <- fMul (loadP v pX) (val zinv) ;;
  y <- fMul (loadP v pY) (val zinv) ;;
  ret (ToBig x, ToBig y).

Definition ToExtended (v : ptr) : M ptr :=
  r <- newE ;;
  storeE r set_eX (fMul (loadP v pX) (loadP v pZ)) ;;
  storeE r set_eY (fMul (loadP v pY) (loadP v pZ)) ;;
  storeE r set_eT (fMul (loadP v pX) (loadP v pY)) ;;
  storeE r set_eZ (fSquare (loadP v pZ)) ;;
  ret r.

Definition Zero (v : ptr) : M ptr :=
  storeP v set_pX (val radix51.Zero) ;;
  storeP v set_pY (val One) ;;
  storeP v set_pZ (val One) ;;
  ret v.

(** [p] never has its address taken and stays a local struct; [q] is
    returned by address and lives in the arena. *)
Definition DoubleZ1 (v : ptr) : M ptr :=
  q <- newP ;;
  p <- derefP v ;;
  t0 <- fSquare (val (pX p)) ;;
  t1 <- fSquare (val (pY p)) ;;
  a <- fAdd (val (pX p)) (val (pY p)) ;;
  let p := set_pZ a p in
  storeP q set_pX (fSquare (val (pZ p))) ;;
  storeP q set_pZ (fNeg (val t0)) ;;
  a <- fAdd (loadP q pZ) (val t1) ;;
  let p := set_pX a p in
  a <- fSub (loadP q pX) (val t0) ;;
  let p := set_pY a p in
  a <- fSub (val (pY p)) (val t1) ;;
  let p := set_pY a p in
  a <- fSub (val (pX p)) (val Two) ;;
  let p := set_pZ a p in
  storeP q set_pX (fMul (val (pY p)) (val (pZ p))) ;;
  a <- fSub (loadP q pZ) (val t1) ;;
  let p := set_pY a p in
  storeP q set_pY (fMul (val (pX p)) (val (pY p))) ;;
  storeP q set_pZ (fSquare (val (pX p))) ;;
  storeP q set_pZ (fSub (loadP q pZ) (val (pX p))) ;;
  storeP q set_pZ (fSub (loadP q pZ) (val (pX p))) ;;
  ret q.

End Projective.

(** Two concrete stores: one holding the base point in both
    representations, one holding points whose [Z] is zero. *)
Definition store_B : store := mkStore [B_extended] [B_projective] no_ops.

Definition store_Z0 : store :=
  mkStore [mkExtended One One radix51.Zero One]
          [group.Projective.FromAffine Bx By] no_ops.

End mem.

(** ** The variants of [internal/group/ge.go] *)

Module legacy.
Import radix51 group.

(** [func (v *ProjectiveGroupElement) FromAffine(x, y *big.Int)] of
    [ge.go], which ends with [field.FeOne(&v.Z)]. *)
Definition Projective_FromAffine (x y : Z) : ProjectiveGroupElement :=
  let vX := FromBig x in
  let vY := FromBig y in
  let vZ := One in
  {| pX := vX; pY := vY; pZ := vZ |}.

(** [func (v *ProjectiveGroupElement) ToExtended()] of [ge.go], which
    recomputes [T] through an inversion of [Z]. *)
Definition Projective_ToExtended (v : ProjectiveGroupElement)
  : ExtendedGroupElement :=
  let r := zeroExtended in
  let r := set_eX (Set_ (pX v)) r in
  let r := set_eY (Set_ (pY v)) r in
  let r := set_eZ (Set_ (pZ v)) r in
  let zinv := Invert (pZ v) in
  let r := set_eT (Mul (pX v) (pY v)) r in
  let r := set_eT (Mul (eT r) zinv) r in
  r.

(** [func (v *ProjectiveGroupElement) DoubleZ1()] of [ge.go], which builds
    [B = (X1+Y1)^2] as [X1^2 + Y1^2 + 2*(X1*Y1)]. *)
Definition Projective_DoubleZ1 (v : ProjectiveGroupElement)
  : ProjectiveGroupElement :=
  let q := zeroProjective in
  let p := v in
  let t0 := Square (pX p) in
  let t1 := Square (pY p) in
  let p := set_pZ (Mul (pX p) (pY p)) p in
  let q := set_pX (Add t0 t1) q in
  let q := set_pX (Add (pX q) (pZ p)) q in
  let q := set_pX (Add (pX q) (pZ p)) q in
  let q := set_pZ (Neg t0) q in
  let p := set_pX (Add (pZ q) t1) p in
  let p := set_pY (Sub (pX q) t0) p in
  let p := set_pY (Sub (pY p) t1) p in
  let p := set_pZ (Sub (pX p) Two) p in
  let q := set_pX (Mul (pY p) (pZ p)) q in
  let p := set_pY (Sub (pZ q) t1) p in
  let q := set_pY (Mul (pX p) (pY p)) q in
  let q := set_pZ (Square (pX p)) q in
  let q := set_pZ (Sub (pZ q) (pX p)) q in
  let q := set_pZ (Sub (pZ q) (pX p)) q in
  q.

End legacy.

(** ** Soundness of the primality certificates *)

Module PrimalityFacts.
Import Primality.

Lemma trial_sound fuel : forall d n, 1 < d ->
  trial fuel d n = true ->
  forall e, d <= e -> e * e <= n -> ~ (e | n).
Proof.
  induction fuel as [|f IH]; intros d n Hd; simpl; [discriminate|].
  destruct (Z.ltb_spec n (d * d)) as [Hlt|Hge].
  - intros _ e He Hee. nia.
  - destruct (Z.eqb_spec (n mod d) 0) as [|Hmod]; [discriminate|].
    intros Ht e He Hee Hdiv.
    destruct (Z.eq_dec e d) as [->|Hne].
    + apply Hmod, Z.mod0_divide, Hdiv.
    + apply (IH (d + 1) n ltac:(lia) Ht e); auto; lia.
Qed.

Lemma small_divisor n k : 1 < k < n -> (k | n) ->
  exists e, 1 < e /\ e * e <= n /\ (e | n).
Proof.
  intros Hk [m Hm].
  destruct (Z_le_gt_dec k m).
  - exists k. repeat split; try lia; try nia. exists m; exact Hm.
  - exists m. repeat split; try nia. exists k; lia.
Qed.

Lemma trial_prime fuel n : 1 < n -> trial fuel 2 n = true -> Z.prime n.
Proof.
  intros Hn Ht. split; [exact Hn|].
  intros k Hk Hdiv.
  destruct (small_divisor n k Hk Hdiv) as (e & He1 & He2 & He3).
  exact (trial_sound fuel 2 n ltac:(lia) Ht e ltac:(lia) He2 He3).
Qed.

Lemma prime_divisor : forall n, 1 < n -> exists r, Z.prime r /\ (r | n).
Proof.
  intros n Hn. assert (H0 : 0 <= n) by lia. revert Hn.
  pattern n. apply Zlt_0_rec; [|exact H0]. clear n H0.
  intros n IH _ Hn.
  destruct (prime_dec n) as [Hp|Hnp].
  - exists n. split; [apply prime_alt, Hp|apply Z.divide_refl].
  - destruct (not_prime_divide n Hn Hnp) as (k & Hk & Hdiv).
    destruct (IH k ltac:(lia) ltac:(lia)) as (r & Hr & Hrk).
    exists r. split; [exact Hr|]. eapply Z.divide_trans; eauto.
Qed.

(** An element of order [q] in the units of [Z/r] forces [q | r - 1]. *)
Lemma order_divides N r q a k :
  Z.prime r -> (r | N) -> Z.prime q -> order_ok N (q, a, k) = true ->
  (q | r - 1).
Proof.
  intros Hr HrN Hq Hok. unfold order_ok in Hok.
  apply andb_prop in Hok. destruct Hok as [Hpow Hgcd].
  apply Z.eqb_eq in Hpow, Hgcd.
  set (b := Zmod.pow (Zmod.of_Z N a) k) in *.
  pose proof (Z.prime_ge_2 _ Hr) as Hr2.
  pose proof (Z.prime_ge_2 _ Hq) as Hq2.
  set (beta := Zmod.of_Z r (Zmod.to_Z b)).
  assert (Hbq : Zmod.pow beta q = Zmod.one).
  { unfold beta. rewrite <- Zmod.of_Z_pow by lia.
    rewrite Zmod.to_Z_pow_nonneg_r in Hpow by lia.
    rewrite <- Zmod.of_Z_1. apply Zmod.of_Z_inj.
    rewrite <- (Z.mod_mod_divide _ N r HrN), Hpow. reflexivity. }
  assert (Hb1 : beta <> Zmod.one).
  { intros E. unfold beta in E. rewrite <- Zmod.of_Z_1 in E.
    apply Zmod.of_Z_inj in E.
    assert (Hd : (r | Zmod.to_Z b - 1)).
    { apply Z.mod_divide; [lia|].
      rewrite Zminus_mod, E, Z.sub_diag. apply Z.mod_0_l; lia. }
    pose proof (Z.gcd_greatest _ _ _ Hd HrN) as Hg. rewrite Hgcd in Hg.
    apply Z.divide_1_r_nonneg in Hg; lia. }
  assert (Hb0 : beta <> Zmod.zero).
  { intros E. rewrite E, Zmod.pow_0_l in Hbq by lia.
    symmetry in Hbq. revert Hbq. apply Zmod.one_neq_zero. lia. }
  assert (Hcop : Z.gcd (Zmod.to_Z beta) r = 1).
  { rewrite Z.gcd_comm. apply Z.coprime_prime_small; [exact Hr|].
    pose proof (Zmod.to_Z_range beta). apply Zmod.to_Z_nz in Hb0. lia. }
  pose proof (Zmod.fermat_nz beta Hb0 Hr) as Hfer.
  destruct (Z.BoolSpec_divide q (r - 1)) as [Hd|Hnd]; [exact Hd|exfalso].
  pose proof (Z.coprime_prime_l q (r - 1) Hq Hnd) as Hc.
  apply Z.Bezout_coprime in Hc. destruct Hc as (u & v & Huv).
  apply Hb1. rewrite <- (Zmod.pow_1_r beta), <- Huv.
  rewrite Zmod.pow_add_r_coprime by exact Hcop.
  rewrite (Z.mul_comm u q), (Z.mul_comm v (r - 1)).
  rewrite !Zmod.pow_mul_r_coprime by exact Hcop.
  replace (r - 1) with (Z.pred r) by lia.
  rewrite Hbq, Hfer, !Zmod.pow_1_l. apply Zmod.mul_1_l.
Qed.

Lemma chain_divides m : forall qs,
  coprime_chain qs = true -> (forall q, In q qs -> (q | m)) ->
  (fold_right Z.mul 1 qs | m).
Proof.
  induction qs as [|q qs IH]; simpl; intros Hc Hall.
  - apply Z.divide_1_l.
  - apply andb_prop in Hc. destruct Hc as [Hg Hc]. apply Z.eqb_eq in Hg.
    specialize (IH Hc (fun x Hx => Hall x (or_intror Hx))).
    destruct (Hall q (or_introl eq_refl)) as [c Hcq]. subst m.
    replace (c * q) with (q * c) in * by apply Z.mul_comm.
    apply Z.mul_divide_mono_l.
    apply Z.gauss with (m := q); [exact IH|].
    rewrite Z.gcd_comm. exact Hg.
Qed.

(** Soundness of the checker: every prime factor [r] of [N] is congruent to
    1 modulo the product [F] of the certificate's primes, and [N < (F+1)^2]
    leaves no room for a proper factor. *)
Theorem pock_sound N cert :
  (forall c, In c cert -> Z.prime (fst (fst c))) ->
  pock_check N cert = true -> Z.prime N.
Proof.
  intros Hprimes Hchk. unfold pock_check in Hchk.
  apply andb_prop in Hchk. destruct Hchk as [Hchk Hsize].
  apply andb_prop in Hchk. destruct Hchk as [Hchk HF0].
  apply andb_prop in Hchk. destruct Hchk as [Hchk Hchain].
  apply andb_prop in Hchk. destruct Hchk as [HN Hord].
  apply Z.ltb_lt in HN, Hsize, HF0. rewrite forallb_forall in Hord.
  set (F := fold_right Z.mul 1 (map (fun c => fst (fst c)) cert)) in *.
  split; [exact HN|]. intros n Hn Hdiv.
  destruct (small_divisor N n Hn Hdiv) as (e & He1 & He2 & He3).
  destruct (prime_divisor e He1) as (r & Hr & Hre).
  assert (HrN : (r | N)) by (eapply Z.divide_trans; eauto).
  assert (HF : (F | r - 1)).
  { apply chain_divides; [exact Hchain|].
    intros q Hq. apply in_map_iff in Hq. destruct Hq as (c & <- & Hc).
    destruct c as [[q a] k]. simpl.
    apply (order_divides N r q a k Hr HrN (Hprimes _ Hc) (Hord _ Hc)). }
  pose proof (Z.prime_ge_2 _ Hr) as Hr2.
  assert (Hrle : r <= e) by (apply Z.divide_pos_le; [lia|exact Hre]).
  assert (HFle : F <= r - 1) by (apply Z.divide_pos_le; [lia|exact HF]).
  assert ((F + 1) * (F + 1) <= e * e) by nia.
  lia.
Qed.

Ltac by_trial fuel := apply (trial_prime fuel); [lia | vm_compute; reflexivity].

Ltac by_certificate cert primes :=
  apply (pock_sound _ cert);
  [ let c := fresh "c" in let Hc := fresh "Hc" in
    intros c Hc; simpl in Hc;
    repeat (destruct Hc as [<-|Hc]; [solve [primes]|]); destruct Hc
  | vm_compute; reflexivity ].

Lemma prime_127 : Z.prime 127.
Proof. by_trial 20%nat. Qed.

Lemma prime_353 : Z.prime 353.
Proof. by_trial 30%nat. Qed.

Lemma prime_75707 : Z.prime 75707.
Proof. by_trial 300%nat. Qed.

Lemma prime_8574133 : Z.prime 8574133.
Proof. by_trial 3000%nat. Qed.

Lemma prime_q4 : Z.prime q4.
Proof.
  by_certificate [(8574133, 2, (q4 - 1) / 8574133); (127, 2, (q4 - 1) / 127)]
    ltac:(first [exact prime_8574133 | exact prime_127]).
Qed.

Lemma prime_q2 : Z.prime q2.
Proof.
  by_certificate [(q4, 2, (q2 - 1) / q4); (75707, 2, (q2 - 1) / 75707)]
    ltac:(first [exact prime_q4 | exact prime_75707]).
Qed.

Lemma prime_q1 : Z.prime q1.
Proof.
  by_certificate [(q2, 2, (q1 - 1) / q2); (353, 2, (q1 - 1) / 353)]
    ltac:(first [exact prime_q2 | exact prime_353]).
Qed.

(** The modulus of the field: [2^255 - 19 - 1 = 4 * 3 * 65147 * q1]. *)
Theorem prime_2_255_19 : Z.prime (2 ^ 255 - 19).
Proof.
  by_certificate [(q1, 2, (2 ^ 255 - 19 - 1) / q1)] ltac:(exact prime_q1).
Qed.

End PrimalityFacts.

(** ** Facts about the field *)

Module FieldFacts.
Import radix51 group.

Lemma p_prime : Z.prime p.
Proof. exact PrimalityFacts.prime_2_255_19. Qed.

Lemma p_ge_2 : 2 <= p.
Proof. apply Z.prime_ge_2, p_prime. Qed.

Lemma fe_ring : ring_theory Zero One Add Mul Sub Neg (@eq FieldElement).
Proof. exact (Zmod.ring_theory p). Qed.

Lemma Square_Mul a : Square a = Mul a a.
Proof. reflexivity. Qed.

Lemma Two_eq : Two = Add One One.
Proof. vm_compute. reflexivity. Qed.

Lemma twoD_eq : twoD = Add D D.
Proof. vm_compute. reflexivity. Qed.

(** [D] is the curve constant [-121665/121666]. *)
Lemma D_eq : Mul (FromBig 121666) D = FromBig (-121665).
Proof. vm_compute. reflexivity. Qed.

Lemma One_neq_Zero : One <> Zero.
Proof. apply Zmod.one_neq_zero. pose proof p_ge_2. lia. Qed.

Lemma Invert_Zero : Invert Zero = Zero.
Proof. unfold Invert, Zero. apply Zmod.pow_0_l. vm_compute. discriminate. Qed.

Lemma Invert_One : Invert One = One.
Proof. unfold Invert, One. apply Zmod.pow_1_l. Qed.

Lemma Mul_Invert (z : FieldElement) : z <> Zero -> Mul z (Invert z) = One.
Proof.
  intros Hz. unfold Invert, Mul, One.
  rewrite (Zmod.fermat_inv z Hz p_prime).
  apply Zmod.mul_inv_same_r_prime; [exact p_prime|exact Hz].
Qed.

Lemma Invert_Mul (a b : FieldElement) :
  Invert (Mul a b) = Mul (Invert a) (Invert b).
Proof. unfold Invert, Mul. apply Zmod.pow_mul_l_nonneg. vm_compute. discriminate. Qed.

Lemma Mul_Zero_r (a : FieldElement) : Mul a Zero = Zero.
Proof. apply (Zmod.mul_0_r a). Qed.

Lemma Mul_Zero_l (a : FieldElement) : Mul Zero a = Zero.
Proof. apply (Zmod.mul_0_l a). Qed.

Lemma Mul_One_r (a : FieldElement) : Mul a One = a.
Proof. apply (Zmod.mul_1_r a). Qed.

Lemma Mul_eq_Zero (a b : FieldElement) :
  Mul a b = Zero -> a = Zero \/ b = Zero.
Proof. apply Zmod.mul_0_iff_prime, p_prime. Qed.

Lemma ToBig_Zero : ToBig Zero = 0.
Proof. reflexivity. Qed.

Lemma ToBig_range (a : FieldElement) : 0 <= ToBig a < p.
Proof. apply Zmod.to_Z_pos_bound. pose proof p_ge_2. lia. Qed.

Lemma ToBig_FromBig (x : Z) : ToBig (FromBig x) = x mod p.
Proof. apply Zmod.to_Z_of_Z. Qed.

Lemma FromBig_ToBig (a : FieldElement) : FromBig (ToBig a) = a.
Proof. apply Zmod.of_Z_to_Z. Qed.

Lemma ToBig_inj (a b : FieldElement) : ToBig a = ToBig b -> a = b.
Proof. apply Zmod.to_Z_inj. Qed.

End FieldFacts.

Import radix51 group FieldFacts.
Add Ring fe_ring_inst : fe_ring.

(** ** The methods on the store compute the functions on values *)

Module MemFacts.
Import mem.

Lemma bind_run {A B : Type} (m : M A) (k : A -> M B) (s s' : store) (a : A) :
  m s = Some (a, s') -> bind m k s = k a s'.
Proof. intros H. unfold bind. rewrite H. reflexivity. Qed.

Lemma val_run (a : FieldElement) (s : store) : val a s = Some (a, s).
Proof. reflexivity. Qed.

Lemma loadE_run (l : ptr) f (s : store) (e : ExtendedGroupElement) :
  exts s !! l = Some e -> loadE l f s = Some (f e, s).
Proof. intros H. unfold loadE. rewrite H. reflexivity. Qed.

Lemma loadP_run (l : ptr) f (s : store) (e : ProjectiveGroupElement) :
  projs s !! l = Some e -> loadP l f s = Some (f e, s).
Proof. intros H. unfold loadP. rewrite H. reflexivity. Qed.

Lemma derefP_run (l : ptr) (s : store) (e : ProjectiveGroupElement) :
  projs s !! l = Some e -> derefP l s = Some (e, s).
Proof. intros H. unfold derefP. rewrite H. reflexivity. Qed.

(** Operands only read: a field operation leaves the objects alone and
    adds its cost. *)
Lemma op1_run c f (a : M FieldElement) (s : store) (x : FieldElement) :
  a s = Some (x, s) ->
  op1 c f a s
  = Some (f x, mkStore (exts s) (projs s) (ops_plus (cost s) c)).
Proof. intros Ha. unfold op1, bind, charge, ret. rewrite Ha. reflexivity. Qed.

Lemma op2_run c f (a b : M FieldElement) (s : store) (x y : FieldElement) :
  a s = Some (x, s) -> b s = Some (y, s) ->
  op2 c f a b s
  = Some (f x y, mkStore (exts s) (projs s) (ops_plus (cost s) c)).
Proof.
  intros Ha Hb. unfold op2, bind, charge, ret. rewrite Ha, Hb. reflexivity.
Qed.

Lemma fSet_run (a : M FieldElement) (s : store) (x : FieldElement) :
  a s = Some (x, s) -> fSet a s = Some (x, s).
Proof. intros Ha. unfold fSet, bind, ret. rewrite Ha. reflexivity. Qed.

Lemma storeE_run l set (m : M FieldElement) (s s' : store) a e :
  m s = Some (a, s') -> exts s' !! l = Some e ->
  storeE l set m s
  = Some (tt, mkStore (<[l := set a e]> (exts s')) (projs s') (cost s')).
Proof.
  intros Hm He. unfold storeE, bind. rewrite Hm, He. reflexivity.
Qed.

Lemma storeP_run l set (m : M FieldElement) (s s' : store) a e :
  m s = Some (a, s') -> projs s' !! l = Some e ->
  storeP l set m s
  = Some (tt, mkStore (exts s') (<[l := set a e]> (projs s')) (cost s')).
Proof.
  intros Hm He. unfold storeP, bind. rewrite Hm, He. reflexivity.
Qed.

Lemma newE_run (s : store) :
  newE s = Some (length (exts s),
                 mkStore (exts s ++ [zeroExtended]) (projs s) (cost s)).
Proof. reflexivity. Qed.

Lemma newP_run (s : store) :
  newP s = Some (length (projs s),
                 mkStore (exts s) (projs s ++ [zeroProjective]) (cost s)).
Proof. reflexivity. Qed.

Lemma lookup_insert_same {A : Type} (l : list A) (i : nat) (x y : A) :
  l !! i = Some x -> <[i := y]> l !! i = Some y.
Proof. intros H. apply list_lookup_insert_eq. eapply lookup_lt_Some; eauto. Qed.

Lemma lookup_fresh {A : Type} (l : list A) (x : A) :
  (l ++ [x]) !! length l = Some x.
Proof. apply list_lookup_middle. reflexivity. Qed.

Lemma lookup_old {A : Type} (l : list A) (i : nat) (x y : A) :
  l !! i = Some x -> (l ++ [y]) !! i = Some x.
Proof. intros H. apply lookup_app_l_Some. exact H. Qed.

Lemma insert_fresh {A : Type} (l : list A) (x y : A) :
  <[length l := y]> (l ++ [x]) = l ++ [y].
Proof.
  rewrite insert_app_r_alt by lia. rewrite Nat.sub_diag. reflexivity.
Qed.

(** Resolves a lookup in a store that a run has built. *)
Ltac lookup_tac :=
  cbn [exts projs cost];
  first
    [ eassumption
    | apply lookup_fresh
    | eapply lookup_insert_same; lookup_tac
    | eapply lookup_old; lookup_tac ].

Ltac operand_tac :=
  first
    [ apply val_run
    | eapply loadE_run; lookup_tac
    | eapply loadP_run; lookup_tac ].

Ltac prim_tac :=
  first
    [ eapply op2_run; operand_tac
    | eapply op1_run; operand_tac
    | eapply fSet_run; operand_tac
    | apply val_run
    | apply newE_run
    | apply newP_run
    | eapply derefP_run; lookup_tac ].

Ltac run_step :=
  lazymatch goal with
  | |- bind (storeE _ _ _) _ _ = _ =>
      erewrite bind_run; [| eapply storeE_run; [prim_tac | lookup_tac]]
  | |- bind (storeP _ _ _) _ _ = _ =>
      erewrite bind_run; [| eapply storeP_run; [prim_tac | lookup_tac]]
  | |- bind _ _ _ = _ =>
      erewrite bind_run; [| prim_tac]
  end; cbv beta zeta; cbn [exts projs cost].

Ltac run_all := repeat run_step; unfold ret; cbn [exts projs cost].

Lemma store_eq_intro a a' b b' c c' :
  a = a' -> b = b' -> c = c' -> mkStore a b c = mkStore a' b' c'.
Proof. intros -> -> ->. reflexivity. Qed.

Lemma ops_plus_assoc a b c :
  ops_plus (ops_plus a b) c = ops_plus a (ops_plus b c).
Proof. destruct a, b, c. unfold ops_plus; simpl. f_equal; lia. Qed.

(** The cost of a run is the initial cost plus a closed sum. *)
Ltac cost_tac :=
  rewrite ?ops_plus_assoc;
  lazymatch goal with
  | |- ?c = ?c => reflexivity
  | |- ops_plus ?c _ = ops_plus ?c _ =>
      apply (f_equal (ops_plus c)); vm_compute; reflexivity
  end.

(** Unfolds the methods on values down to the field operations. *)
Ltac value_tac :=
  cbv beta iota zeta delta
    [ group.Extended.FromAffine group.Extended.ToAffine
      group.Extended.ToProjective group.Extended.Zero group.Extended.Add
      group.Extended.Double group.Projective.FromAffine
      group.Projective.ToAffine group.Projective.ToExtended
      group.Projective.Zero group.Projective.DoubleZ1
      set_eX set_eY set_eZ set_eT set_pX set_pY set_pZ
      eX eY eZ eT pX pY pZ zeroExtended zeroProjective Set_ ];
  reflexivity.

Ltac objects_tac :=
  rewrite ?list_insert_insert_eq, ?insert_fresh; value_tac.

Ltac run_done :=
  apply (f_equal Some); apply (f_equal2 pair);
  [ value_tac
  | apply store_eq_intro;
    [ objects_tac | objects_tac | cost_tac ] ].

Ltac run_method :=
  unfold fAdd, fSub, fMul, fNeg, fSquare, fInvert; run_all; run_done.

Section Runs.
Variable s : store.

Lemma Extended_FromAffine_run (v : ptr) (x y : Z) (V : ExtendedGroupElement) :
  exts s !! v = Some V ->
  mem.Extended.FromAffine v x y s
  = Some (tt, mkStore (<[v := group.Extended.FromAffine x y]> (exts s))
                      (projs s) (ops_plus (cost s) (mkOps 1 0 0 0 0 0))).
Proof.
  intros Hv. unfold mem.Extended.FromAffine.
  unfold fMul. repeat run_step.
  erewrite storeE_run; [| prim_tac | lookup_tac].
  cbn [exts projs cost]. run_done.
Qed.

Lemma Extended_ToAffine_run (v : ptr) (V : ExtendedGroupElement) :
  exts s !! v = Some V ->
  mem.Extended.ToAffine v s
  = Some (group.Extended.ToAffine V,
          mkStore (exts s) (projs s) (ops_plus (cost s) (mkOps 2 0 1 0 0 0))).
Proof. intros Hv. unfold mem.Extended.ToAffine. run_method. Qed.

Lemma Extended_ToProjective_run (v : ptr) (V : ExtendedGroupElement) :
  exts s !! v = Some V ->
  mem.Extended.ToProjective v s
  = Some (length (projs s),
          mkStore (exts s) (projs s ++ [group.Extended.ToProjective V])
                  (cost s)).
Proof. intros Hv. unfold mem.Extended.ToProjective. run_method. Qed.

Lemma Extended_Zero_run (v : ptr) (V : ExtendedGroupElement) :
  exts s !! v = Some V ->
  mem.Extended.Zero v s
  = Some (v, mkStore (<[v := group.Extended.Zero]> (exts s)) (projs s)
                     (cost s)).
Proof. intros Hv. unfold mem.Extended.Zero. run_method. Qed.

(** No assumption relates [v], [p1] and [p2]: they may be equal. *)
Lemma Extended_Add_run (v p1 p2 : ptr) (V P1 P2 : ExtendedGroupElement) :
  exts s !! v = Some V -> exts s !! p1 = Some P1 -> exts s !! p2 = Some P2 ->
  mem.Extended.Add v p1 p2 s
  = Some (v, mkStore (<[v := group.Extended.Add P1 P2]> (exts s)) (projs s)
                     (ops_plus (cost s) (mkOps 9 0 0 5 4 0))).
Proof. intros Hv H1 H2. unfold mem.Extended.Add. run_method. Qed.

Lemma Extended_Double_run (v : ptr) (V : ExtendedGroupElement) :
  exts s !! v = Some V ->
  mem.Extended.Double v s
  = Some (v, mkStore (<[v := group.Extended.Double V]> (exts s)) (projs s)
                     (ops_plus (cost s) (mkOps 4 4 0 3 4 1))).
Proof. intros Hv. unfold mem.Extended.Double. run_method. Qed.

Lemma Projective_FromAffine_run (v : ptr) (x y : Z)
      (V : ProjectiveGroupElement) :
  projs s !! v = Some V ->
  mem.Projective.FromAffine v x y s
  = Some (tt, mkStore (exts s)
                      (<[v := group.Projective.FromAffine x y]> (projs s))
                      (cost s)).
Proof.
  intros Hv. unfold mem.Projective.FromAffine. repeat run_step.
  erewrite storeP_run; [| prim_tac | lookup_tac].
  cbn [exts projs cost]. run_done.
Qed.

Lemma Projective_ToAffine_run (v : ptr) (V : ProjectiveGroupElement) :
  projs s !! v = Some V ->
  mem.Projective.ToAffine v s
  = Some (group.Projective.ToAffine V,
          mkStore (exts s) (projs s) (ops_plus (cost s) (mkOps 2 0 1 0 0 0))).
Proof. intros Hv. unfold mem.Projective.ToAffine. run_method. Qed.

Lemma Projective_ToExtended_run (v : ptr) (V : ProjectiveGroupElement) :
  projs s !! v = Some V ->
  mem.Projective.ToExtended v s
  = Some (length (exts s),
          mkStore (exts s ++ [group.Projective.ToExtended V]) (projs s)
                  (ops_plus (cost s) (mkOps 3 1 0 0 0 0))).
Proof. intros Hv. unfold mem.Projective.ToExtended. run_method. Qed.

Lemma Projective_Zero_run (v : ptr) (V : ProjectiveGroupElement) :
  projs s !! v = Some V ->
  mem.Projective.Zero v s
  = Some (v, mkStore (exts s) (<[v := group.Projective.Zero]> (projs s))
                     (cost s)).
Proof. intros Hv. unfold mem.Projective.Zero. run_method. Qed.

Lemma Projective_DoubleZ1_run (v : ptr) (V : ProjectiveGroupElement) :
  projs s !! v = Some V ->
  mem.Projective.DoubleZ1 v s
  = Some (length (projs s),
          mkStore (exts s) (projs s ++ [group.Projective.DoubleZ1 V])
                  (ops_plus (cost s) (mkOps 2 4 0 2 6 1))).
Proof. intros Hv. unfold mem.Projective.DoubleZ1. run_method. Qed.

End Runs.

End MemFacts.

(** ** Algebra of the formulas *)

Module GroupFacts.
Import group.

Lemma four_neq_Zero : four <> Zero.
Proof.
  intros H. apply (f_equal ToBig) in H. vm_compute in H. discriminate.
Qed.

Lemma Neg_eq_Zero (a : FieldElement) : Neg a = Zero -> a = Zero.
Proof. intros H. transitivity (Neg (Neg a)); [ring | rewrite H; ring]. Qed.

(** Scaling numerator and denominator by a unit leaves the quotient alone. *)
Lemma scale_quotient (c x z : FieldElement) :
  c <> Zero -> Mul (Mul c x) (Invert (Mul c z)) = Mul x (Invert z).
Proof.
  intros Hc. rewrite Invert_Mul.
  transitivity (Mul (Mul c (Invert c)) (Mul x (Invert z))); [ring|].
  rewrite (Mul_Invert c Hc). ring.
Qed.

(** A valid point has an invertible [Z] and satisfies the curve equation in
    homogeneous form, [Y^2 - X^2 = Z^2 + d*T^2]. *)
Lemma valid_Z_nonzero (P : ExtendedGroupElement) : valid P -> eZ P <> Zero.
Proof.
  intros [_ Hc] Hz. unfold Extended.ToAffine, on_curve in Hc.
  cbv zeta in Hc. cbn [fst snd] in Hc. rewrite !FromBig_ToBig in Hc.
  rewrite Hz, Invert_Zero, !Mul_Zero_r in Hc.
  apply One_neq_Zero. symmetry.
  match type of Hc with
  | ?l = ?r => transitivity l; [unfold Square; ring | rewrite Hc; unfold Square; ring]
  end.
Qed.

Lemma valid_curve (P : ExtendedGroupElement) :
  valid P ->
  Mul (eY P) (eY P)
  = Add (Mul (eX P) (eX P))
        (Add (Mul (eZ P) (eZ P)) (Mul D (Mul (eT P) (eT P)))).
Proof.
  intros HP. pose proof (valid_Z_nonzero P HP) as Hz.
  destruct HP as [Hx Hc]. destruct P as [X Y Z_ T]. unfold cross in Hx.
  cbn [eX eY eZ eT] in *.
  unfold Extended.ToAffine, on_curve in Hc. cbv zeta in Hc.
  cbn [eX eY eZ eT fst snd] in Hc.
  rewrite !FromBig_ToBig, !Square_Mul in Hc.
  pose proof (Mul_Invert Z_ Hz) as Hu.
  set (zi := Invert Z_) in *.
  assert (E1 : Sub (Mul Y Y) (Mul X X)
               = Mul (Mul Z_ Z_) (Add (Neg (Mul (Mul X zi) (Mul X zi)))
                                      (Mul (Mul Y zi) (Mul Y zi)))).
  { transitivity (Mul (Sub (Mul Y Y) (Mul X X))
                      (Mul (Mul Z_ zi) (Mul Z_ zi))); [rewrite Hu|]; ring. }
  rewrite Hc in E1.
  assert (E2 : Sub (Mul Y Y) (Mul X X)
               = Add (Mul Z_ Z_) (Mul D (Mul (Mul T T)
                   (Mul (Mul (Mul Z_ zi) (Mul Z_ zi)) (Mul (Mul Z_ zi) (Mul Z_ zi)))))).
  { rewrite E1.
    transitivity (Add (Mul Z_ Z_)
      (Mul D (Mul (Mul (Mul X Y) (Mul X Y)) (Mul (Mul zi zi) (Mul (Mul Z_ zi) (Mul Z_ zi)))))); [ring|].
    rewrite <- Hx. ring. }
  rewrite Hu in E2.
  transitivity (Add (Mul X X) (Sub (Mul Y Y) (Mul X X))); [ring|].
  rewrite E2. ring.
Qed.

Lemma Add_self_scaled (P : ExtendedGroupElement) :
  valid P ->
  let c := Neg four in
  eX (Extended.Add P P) = Mul c (eX (Extended.Double P)) /\
  eY (Extended.Add P P) = Mul c (eY (Extended.Double P)) /\
  eZ (Extended.Add P P) = Mul c (eZ (Extended.Double P)) /\
  eT (Extended.Add P P) = Mul c (eT (Extended.Double P)).
Proof.
  intros HP c. pose proof (valid_curve P HP) as Hq.
  unfold c, four, Extended.Add, Extended.Double.
  destruct P as [X Y Z_ T]. cbn [eX eY eZ eT] in *.
  rewrite !Square_Mul, twoD_eq.
  repeat split; ring [Hq].
Qed.

Lemma Extended_ToAffine_scaled (P Q : ExtendedGroupElement) (c : FieldElement) :
  c <> Zero ->
  eX P = Mul c (eX Q) -> eY P = Mul c (eY Q) -> eZ P = Mul c (eZ Q) ->
  Extended.ToAffine P = Extended.ToAffine Q.
Proof.
  intros Hc HX HY HZ. unfold Extended.ToAffine. cbv zeta.
  rewrite HX, HY, HZ, !scale_quotient by exact Hc. reflexivity.
Qed.

Lemma Extended_ToAffine_Z_zero (P : ExtendedGroupElement) :
  eZ P = Zero -> Extended.ToAffine P = (0, 0).
Proof.
  intros HZ. unfold Extended.ToAffine. cbv zeta.
  rewrite HZ, Invert_Zero, !Mul_Zero_r. reflexivity.
Qed.

Lemma Projective_ToAffine_Z_zero (P : ProjectiveGroupElement) :
  pZ P = Zero -> Projective.ToAffine P = (0, 0).
Proof.
  intros HZ. unfold Projective.ToAffine. cbv zeta.
  rewrite HZ, Invert_Zero, !Mul_Zero_r. reflexivity.
Qed.

(** Adding the identity scales every coordinate by [4*Z]. *)
Lemma Add_Zero_r_scaled (P : ExtendedGroupElement) :
  let c := Mul four (eZ P) in
  eX (Extended.Add P Extended.Zero) = Mul c (eX P) /\
  eY (Extended.Add P Extended.Zero) = Mul c (eY P) /\
  eZ (Extended.Add P Extended.Zero) = Mul c (eZ P).
Proof.
  intros c. unfold c, four, Extended.Add, Extended.Zero.
  destruct P as [X Y Z_ T]. cbn [eX eY eZ eT].
  repeat split; ring.
Qed.

Lemma Add_Zero_l_scaled (P : ExtendedGroupElement) :
  let c := Mul four (eZ P) in
  eX (Extended.Add Extended.Zero P) = Mul c (eX P) /\
  eY (Extended.Add Extended.Zero P) = Mul c (eY P) /\
  eZ (Extended.Add Extended.Zero P) = Mul c (eZ P).
Proof.
  intros c. unfold c, four, Extended.Add, Extended.Zero.
  destruct P as [X Y Z_ T]. cbn [eX eY eZ eT].
  repeat split; ring.
Qed.

Lemma scaled_same_affine (P Q : ExtendedGroupElement) :
  (let c := Mul four (eZ P) in
   eX Q = Mul c (eX P) /\ eY Q = Mul c (eY P) /\ eZ Q = Mul c (eZ P)) ->
  Extended.ToAffine Q = Extended.ToAffine P.
Proof.
  cbv zeta. intros (HX & HY & HZ).
  destruct (Zmod.eqb_spec (eZ P) Zero) as [Hz|Hz].
  - rewrite (Extended_ToAffine_Z_zero P Hz).
    apply Extended_ToAffine_Z_zero. rewrite HZ, Hz. ring.
  - apply (Extended_ToAffine_scaled Q P (Mul four (eZ P))); auto.
    intros H. apply Mul_eq_Zero in H. destruct H as [H|H].
    + exact (four_neq_Zero H).
    + exact (Hz H).
Qed.

(** The identity is neutral for [Add] up to the affine point, for every
    extended point. *)
Lemma Add_Zero_r_affine (P : ExtendedGroupElement) :
  Extended.ToAffine (Extended.Add P Extended.Zero) = Extended.ToAffine P.
Proof. apply scaled_same_affine, Add_Zero_r_scaled. Qed.

Lemma Add_Zero_l_affine (P : ExtendedGroupElement) :
  Extended.ToAffine (Extended.Add Extended.Zero P) = Extended.ToAffine P.
Proof. apply scaled_same_affine, Add_Zero_l_scaled. Qed.

(** With [Z = 1] the fast doubling is, coordinate by coordinate, the
    dedicated extended doubling of the converted point. *)
Lemma DoubleZ1_as_extended (P : ProjectiveGroupElement) :
  pZ P = One ->
  Projective.DoubleZ1 P
  = Extended.ToProjective (Extended.Double (Projective.ToExtended P)).
Proof.
  destruct P as [X Y Z_]. cbn [pZ]. intros ->.
  unfold Projective.DoubleZ1, Extended.ToProjective, Extended.Double,
    Projective.ToExtended.
  cbv beta iota zeta delta
    [set_eX set_eY set_eZ set_eT set_pX set_pY set_pZ
     eX eY eZ eT pX pY pZ zeroExtended zeroProjective Set_].
  rewrite !Square_Mul, Two_eq.
  f_equal; ring.
Qed.

Lemma cross_Zero : cross Extended.Zero.
Proof. unfold cross, Extended.Zero. cbn [eX eY eZ eT]. ring. Qed.

Lemma cross_FromAffine (x y : Z) : cross (Extended.FromAffine x y).
Proof. unfold cross, Extended.FromAffine. cbn [eX eY eZ eT]. ring. Qed.

Lemma cross_Add (p1 p2 : ExtendedGroupElement) : cross (Extended.Add p1 p2).
Proof. unfold cross, Extended.Add. cbn [eX eY eZ eT]. ring. Qed.

Lemma cross_Double (v : ExtendedGroupElement) : cross (Extended.Double v).
Proof. unfold cross, Extended.Double. cbn [eX eY eZ eT]. ring. Qed.

Lemma cross_ToExtended (v : ProjectiveGroupElement) :
  cross (Projective.ToExtended v).
Proof.
  unfold cross, Projective.ToExtended.
  cbv beta iota zeta delta
    [set_eX set_eY set_eZ set_eT eX eY eZ eT zeroExtended].
  rewrite Square_Mul. ring.
Qed.

Lemma Double_is_formula (v : ExtendedGroupElement) :
  Extended.Double v = Double_formula v.
Proof.
  unfold Extended.Double, Double_formula. cbv zeta.
  rewrite !Square_Mul, Two_eq. f_equal; ring.
Qed.

Lemma B_extended_valid : valid B_extended.
Proof. split; vm_compute; reflexivity. Qed.

Lemma B_projective_valid : valid_projective B_projective.
Proof. vm_compute. reflexivity. Qed.

End GroupFacts.

(** ** The variants of [ge.go] against the canonical file *)

Module LegacyFacts.
Import group.

(** The inversion-based conversion keeps [X], [Y], [Z], hence the affine
    point, for every input. *)
Lemma legacy_ToExtended_affine (P : ProjectiveGroupElement) :
  Extended.ToAffine (legacy.Projective_ToExtended P) = Projective.ToAffine P.
Proof. reflexivity. Qed.

(** It satisfies the cross-invariant when [Z] is invertible... *)
Lemma legacy_ToExtended_cross (P : ProjectiveGroupElement) :
  pZ P <> Zero -> cross (legacy.Projective_ToExtended P).
Proof.
  intros Hz. unfold cross, legacy.Projective_ToExtended.
  cbv beta iota zeta delta
    [set_eX set_eY set_eZ set_eT eX eY eZ eT zeroExtended Set_].
  transitivity (Mul (Mul (pX P) (pY P)) (Mul (pZ P) (Invert (pZ P))));
    [ring|].
  rewrite (Mul_Invert (pZ P) Hz). ring.
Qed.

(** ... and breaks it on [(1, 1, 0)], where the inversion-free conversion of
    the canonical file keeps it. *)
Lemma legacy_ToExtended_cross_fails_at_Z_zero :
  ~ cross (legacy.Projective_ToExtended (mkProjective One One Zero)).
Proof.
  unfold cross, legacy.Projective_ToExtended.
  cbv beta iota zeta delta
    [set_eX set_eY set_eZ set_eT eX eY eZ eT pX pY pZ zeroExtended Set_].
  rewrite Mul_Zero_r, Mul_One_r. intros H. symmetry in H.
  exact (One_neq_Zero H).
Qed.

End LegacyFacts.

(** ** The curve: completeness and the addition law *)

Module CurveFacts.
Import group GroupFacts.

Lemma sqrt_m1_square : Mul sqrt_m1 sqrt_m1 = Neg One.
Proof. vm_compute. reflexivity. Qed.

Lemma D_neq_Zero : D <> Zero.
Proof.
  intros H. apply (f_equal ToBig) in H. vm_compute in H. discriminate.
Qed.

Lemma two_neq_Zero : Add One One <> Zero.
Proof.
  intros H. apply (f_equal ToBig) in H. vm_compute in H. discriminate.
Qed.

Lemma Neg_One_neq_One : Neg One <> One.
Proof.
  intros H. apply (f_equal ToBig) in H. vm_compute in H. discriminate.
Qed.

(** Euler's criterion on [d]: it is not a square. *)
Lemma D_euler : Zmod.pow D ((p - 1) / 2) = Neg One.
Proof. vm_compute. reflexivity. Qed.

Lemma D_nonsquare (t : FieldElement) : Mul t t <> D.
Proof.
  intros Ht.
  assert (Ht0 : t <> Zero).
  { intros ->. rewrite Mul_Zero_r in Ht. symmetry in Ht.
    exact (D_neq_Zero Ht). }
  apply Neg_One_neq_One. rewrite <- D_euler, <- Ht.
  unfold Mul. rewrite Zmod.pow_mul_l_nonneg by (vm_compute; discriminate).
  rewrite <- Zmod.pow_add_r_nonneg by (vm_compute; discriminate).
  replace ((p - 1) / 2 + (p - 1) / 2) with (Z.pred p) by reflexivity.
  apply Zmod.fermat_nz; [exact Ht0 | exact p_prime].
Qed.

Lemma Mul_neq_Zero (a b : FieldElement) :
  a <> Zero -> b <> Zero -> Mul a b <> Zero.
Proof.
  intros Ha Hb H. apply Mul_eq_Zero in H. destruct H; contradiction.
Qed.

Lemma eq_dec_Zero (a : FieldElement) : a = Zero \/ a <> Zero.
Proof. destruct (Zmod.eqb_spec a Zero); auto. Qed.

Section Completeness.
Variables x1 y1 x2 y2 : FieldElement.
Hypothesis H1 : curve x1 y1.
Hypothesis H2 : curve x2 y2.

Let e := Mul D (Mul (Mul x1 x2) (Mul y1 y2)).

(** [d*x1*x2*y1*y2] is neither [1] nor [-1] on two points of the curve. *)
Lemma e_square_neq_One : Mul e e <> One.
Proof.
  pose proof H1 as C1. pose proof H2 as C2. unfold curve in C1, C2.
  intros He. unfold e in He.
  set (w := Mul x1 y1).
  assert (Hw : w <> Zero).
  { intros Hw. apply One_neq_Zero. rewrite <- He.
    transitivity (Mul (Mul w w) (Mul (Mul D D) (Mul (Mul x2 x2) (Mul y2 y2))));
      [unfold w; ring | rewrite Hw; ring]. }
  set (A1 := Mul (Mul D (Mul x1 x1)) (Mul y1 y1)) in *.
  set (A2 := Mul (Mul D (Mul x2 x2)) (Mul y2 y2)) in *.
  assert (K0 : Mul A1 (Sub (Mul y2 y2) (Mul x2 x2))
               = Sub (Mul y1 y1) (Mul x1 x1)).
  { transitivity (Mul A1 (Add (Sub (Sub (Mul y2 y2) (Mul x2 x2)) One) One));
      [ring|].
    rewrite <- C2.
    transitivity (Add (Mul (Mul D (Mul (Mul x1 x2) (Mul y1 y2)))
                           (Mul D (Mul (Mul x1 x2) (Mul y1 y2)))) A1);
      [unfold A1, A2; ring|].
    rewrite He, C1. ring. }
  set (E := Mul D (Mul (Mul x1 x2) (Mul y1 y2))) in *.
  assert (K : forall s : FieldElement, Mul s s = Neg One ->
            Mul (Add (Mul s x1) (Mul E y1)) (Add (Mul s x1) (Mul E y1))
            = Mul D (Mul (Mul w (Add y2 (Mul s x2)))
                         (Mul w (Add y2 (Mul s x2))))).
  { intros s Hs.
    transitivity
      (Add (Add (Mul (Mul s s) (Mul x1 x1)) (Mul (Mul E E) (Mul y1 y1)))
           (Mul (Add One One) (Mul (Mul s E) (Mul x1 y1)))); [ring|].
    rewrite Hs, He. symmetry.
    transitivity
      (Add (Mul A1 (Add (Mul y2 y2) (Mul (Mul s s) (Mul x2 x2))))
           (Mul (Add One One) (Mul (Mul s E) (Mul x1 y1))));
      [unfold A1, E, w; ring|].
    rewrite Hs.
    transitivity
      (Add (Mul A1 (Sub (Mul y2 y2) (Mul x2 x2)))
           (Mul (Add One One) (Mul (Mul s E) (Mul x1 y1)))); [ring|].
    rewrite K0. ring. }
  assert (Sq : forall a b : FieldElement,
            Mul a a = Mul D (Mul (Mul w b) (Mul w b)) -> b = Zero).
  { intros a b Hab. destruct (eq_dec_Zero b) as [Hb|Hb]; [exact Hb|exfalso].
    pose proof (Mul_neq_Zero w b Hw Hb) as Hwb.
    pose proof (Mul_Invert (Mul w b) Hwb) as Hu.
    apply (D_nonsquare (Mul a (Invert (Mul w b)))).
    set (u := Invert (Mul w b)) in *. set (wb := Mul w b) in *.
    transitivity (Mul (Mul a a) (Mul u u)); [ring|]. rewrite Hab.
    transitivity (Mul D (Mul (Mul wb u) (Mul wb u))); [ring|].
    rewrite Hu. ring. }
  pose proof (Sq _ _ (K sqrt_m1 sqrt_m1_square)) as B1.
  assert (Hs' : Mul (Neg sqrt_m1) (Neg sqrt_m1) = Neg One).
  { rewrite <- sqrt_m1_square. ring. }
  pose proof (Sq _ _ (K (Neg sqrt_m1) Hs')) as B2.
  assert (Hy2 : y2 = Zero).
  { destruct (Mul_eq_Zero (Add One One) y2) as [H|H].
    - transitivity (Add (Add y2 (Mul sqrt_m1 x2)) (Add y2 (Mul (Neg sqrt_m1) x2)));
        [ring | rewrite B1, B2; ring].
    - exfalso. exact (two_neq_Zero H).
    - exact H. }
  apply One_neq_Zero. rewrite <- He. unfold E. rewrite Hy2. ring.
Qed.

Lemma denominator_x_nonzero : Add One e <> Zero.
Proof.
  intros H. apply e_square_neq_One.
  transitivity (Add One (Mul (Add One e) (Sub e One))); [ring|].
  rewrite H. ring.
Qed.

Lemma denominator_y_nonzero : Sub One e <> Zero.
Proof.
  intros H. apply e_square_neq_One.
  transitivity (Sub One (Mul (Sub One e) (Add One e))); [ring|].
  rewrite H. ring.
Qed.

(** The sum of two points of the curve is on the curve. *)
Lemma sum_on_curve :
  curve (Mul (Add (Mul x1 y2) (Mul x2 y1)) (Invert (Add One e)))
        (Mul (Add (Mul y1 y2) (Mul x1 x2)) (Invert (Sub One e))).
Proof.
  pose proof (Mul_Invert _ denominator_x_nonzero) as Hu.
  pose proof (Mul_Invert _ denominator_y_nonzero) as Hv.
  assert (Hid :
    Mul D (Mul (Mul (Add (Mul x1 y2) (Mul x2 y1)) (Add (Mul x1 y2) (Mul x2 y1)))
               (Mul (Add (Mul y1 y2) (Mul x1 x2)) (Add (Mul y1 y2) (Mul x1 x2))))
    = Sub (Sub (Mul (Mul (Add (Mul y1 y2) (Mul x1 x2)) (Add (Mul y1 y2) (Mul x1 x2)))
                    (Mul (Add One e) (Add One e)))
               (Mul (Mul (Add (Mul x1 y2) (Mul x2 y1)) (Add (Mul x1 y2) (Mul x2 y1)))
                    (Mul (Sub One e) (Sub One e))))
          (Mul (Mul (Add One e) (Add One e)) (Mul (Sub One e) (Sub One e)))).
  { pose proof H1 as C1. pose proof H2 as C2. unfold curve in C1, C2.
    unfold e. ring [C1 C2]. }
  set (dx := Add One e) in *. set (dy := Sub One e) in *.
  set (u := Invert dx) in *. set (v := Invert dy) in *.
  set (nx := Add (Mul x1 y2) (Mul x2 y1)) in *.
  set (ny := Add (Mul y1 y2) (Mul x1 x2)) in *.
  clearbody nx ny u v dx dy. unfold curve.
  transitivity (Mul (Mul (Mul u u) (Mul v v))
                    (Mul D (Mul (Mul nx nx) (Mul ny ny)))); [ring|].
  rewrite Hid. ring [Hu Hv].
Qed.

End Completeness.

Lemma curve_of_on_curve (x y : FieldElement) :
  on_curve (ToBig x, ToBig y) -> curve x y.
Proof.
  unfold on_curve, curve. cbn [fst snd]. rewrite !FromBig_ToBig, !Square_Mul.
  intros H.
  transitivity (Sub (Add One (Mul D (Mul (Mul x x) (Mul y y)))) One); [ring|].
  rewrite <- H. ring.
Qed.

Lemma on_curve_of_curve (x y : FieldElement) :
  curve x y -> on_curve (ToBig x, ToBig y).
Proof.
  unfold on_curve, curve. cbn [fst snd]. rewrite !FromBig_ToBig, !Square_Mul.
  intros H.
  transitivity (Add One (Sub (Sub (Mul y y) (Mul x x)) One)); [ring|].
  rewrite <- H. ring.
Qed.

Lemma edwards_add_ToBig (x1 y1 x2 y2 : FieldElement) :
  edwards_add (ToBig x1, ToBig y1) (ToBig x2, ToBig y2)
  = (ToBig (Mul (Add (Mul x1 y2) (Mul x2 y1))
                (Invert (Add One (Mul D (Mul (Mul x1 x2) (Mul y1 y2)))))),
     ToBig (Mul (Add (Mul y1 y2) (Mul x1 x2))
                (Invert (Sub One (Mul D (Mul (Mul x1 x2) (Mul y1 y2))))))).
Proof.
  unfold edwards_add. cbn [fst snd]. rewrite !FromBig_ToBig. reflexivity.
Qed.

(** A valid point is [(x*z, y*z, z, x*y*z)] for its affine point [(x, y)]
    on the curve and an invertible [z]. *)
Lemma valid_param (P : ExtendedGroupElement) :
  valid P ->
  exists x y z : FieldElement,
    z <> Zero /\ curve x y /\
    P = mkExtended (Mul x z) (Mul y z) z (Mul (Mul x y) z) /\
    Extended.ToAffine P = (ToBig x, ToBig y).
Proof.
  intros HP. pose proof (valid_Z_nonzero P HP) as Hz.
  destruct HP as [Hx Hc]. destruct P as [X Y Z_ T].
  unfold cross in Hx. cbn [eX eY eZ eT] in *.
  unfold Extended.ToAffine in *. cbv zeta in *. cbn [eX eY eZ eT] in *.
  pose proof (Mul_Invert Z_ Hz) as Hu.
  exists (Mul X (Invert Z_)), (Mul Y (Invert Z_)), Z_.
  split; [exact Hz|]. split; [exact (curve_of_on_curve _ _ Hc)|].
  split; [|reflexivity].
  set (zi := Invert Z_) in *. f_equal.
  - transitivity (Mul X (Mul Z_ zi)); [rewrite Hu|]; ring.
  - transitivity (Mul Y (Mul Z_ zi)); [rewrite Hu|]; ring.
  - transitivity (Mul T (Mul (Mul Z_ zi) (Mul Z_ zi))); [rewrite Hu; ring|].
    transitivity (Mul (Mul T Z_) (Mul Z_ (Mul zi zi))); [ring|].
    rewrite Hx. ring.
Qed.

Lemma param_valid (x y z : FieldElement) :
  z <> Zero -> curve x y ->
  valid (mkExtended (Mul x z) (Mul y z) z (Mul (Mul x y) z)) /\
  Extended.ToAffine (mkExtended (Mul x z) (Mul y z) z (Mul (Mul x y) z))
  = (ToBig x, ToBig y).
Proof.
  intros Hz Hc. pose proof (Mul_Invert z Hz) as Hu.
  assert (HA : Extended.ToAffine
                 (mkExtended (Mul x z) (Mul y z) z (Mul (Mul x y) z))
               = (ToBig x, ToBig y)).
  { unfold Extended.ToAffine. cbv zeta. cbn [eX eY eZ eT].
    set (zi := Invert z) in *. f_equal; f_equal.
    - transitivity (Mul x (Mul z zi)); [|rewrite Hu]; ring.
    - transitivity (Mul y (Mul z zi)); [|rewrite Hu]; ring. }
  split; [|exact HA]. split.
  - unfold cross. cbn [eX eY eZ eT]. ring.
  - rewrite HA. exact (on_curve_of_curve _ _ Hc).
Qed.

(** The unified addition on two points in this form. *)
Lemma Add_param (x1 y1 z1 x2 y2 z2 : FieldElement) :
  let e := Mul D (Mul (Mul x1 x2) (Mul y1 y2)) in
  let k := Mul (Mul four (Mul z1 z2)) (Mul z1 z2) in
  Extended.Add (mkExtended (Mul x1 z1) (Mul y1 z1) z1 (Mul (Mul x1 y1) z1))
               (mkExtended (Mul x2 z2) (Mul y2 z2) z2 (Mul (Mul x2 y2) z2))
  = mkExtended
      (Mul (Mul k (Sub One e)) (Add (Mul x1 y2) (Mul x2 y1)))
      (Mul (Mul k (Add One e)) (Add (Mul y1 y2) (Mul x1 x2)))
      (Mul k (Mul (Add One e) (Sub One e)))
      (Mul k (Mul (Add (Mul x1 y2) (Mul x2 y1)) (Add (Mul y1 y2) (Mul x1 x2)))).
Proof.
  intros e k. unfold e, k, four, Extended.Add. cbn [eX eY eZ eT].
  rewrite twoD_eq. f_equal; ring.
Qed.

Lemma Add_values (P Q : ExtendedGroupElement) :
  valid P -> valid Q ->
  eZ (Extended.Add P Q) <> Zero /\
  on_curve (Extended.ToAffine (Extended.Add P Q)) /\
  Extended.ToAffine (Extended.Add P Q)
  = edwards_add (Extended.ToAffine P) (Extended.ToAffine Q).
Proof.
  intros HP HQ.
  destruct (valid_param P HP) as (x1 & y1 & z1 & Hz1 & C1 & -> & ->).
  destruct (valid_param Q HQ) as (x2 & y2 & z2 & Hz2 & C2 & -> & ->).
  rewrite Add_param, edwards_add_ToBig. cbv zeta.
  pose proof (denominator_x_nonzero x1 y1 x2 y2 C1 C2) as Hdx.
  pose proof (denominator_y_nonzero x1 y1 x2 y2 C1 C2) as Hdy.
  pose proof (sum_on_curve x1 y1 x2 y2 C1 C2) as Hsum.
  cbv zeta in Hdx, Hdy, Hsum.
  set (e := Mul D (Mul (Mul x1 x2) (Mul y1 y2))) in *.
  set (k := Mul (Mul four (Mul z1 z2)) (Mul z1 z2)).
  assert (Hk : k <> Zero).
  { unfold k.
    exact (Mul_neq_Zero _ _
             (Mul_neq_Zero _ _ four_neq_Zero (Mul_neq_Zero _ _ Hz1 Hz2))
             (Mul_neq_Zero _ _ Hz1 Hz2)). }
  assert (HA : Extended.ToAffine
      (mkExtended
         (Mul (Mul k (Sub One e)) (Add (Mul x1 y2) (Mul x2 y1)))
         (Mul (Mul k (Add One e)) (Add (Mul y1 y2) (Mul x1 x2)))
         (Mul k (Mul (Add One e) (Sub One e)))
         (Mul k (Mul (Add (Mul x1 y2) (Mul x2 y1))
                     (Add (Mul y1 y2) (Mul x1 x2)))))
    = (ToBig (Mul (Add (Mul x1 y2) (Mul x2 y1)) (Invert (Add One e))),
       ToBig (Mul (Add (Mul y1 y2) (Mul x1 x2)) (Invert (Sub One e))))).
  { unfold Extended.ToAffine. cbv zeta. cbn [eX eY eZ eT]. f_equal; f_equal.
    - replace (Mul k (Mul (Add One e) (Sub One e)))
        with (Mul (Mul k (Sub One e)) (Add One e)) by ring.
      apply scale_quotient. exact (Mul_neq_Zero _ _ Hk Hdy).
    - replace (Mul k (Mul (Add One e) (Sub One e)))
        with (Mul (Mul k (Add One e)) (Sub One e)) by ring.
      apply scale_quotient. exact (Mul_neq_Zero _ _ Hk Hdx). }
  split; [|split].
  - cbn [eZ]. exact (Mul_neq_Zero _ _ Hk (Mul_neq_Zero _ _ Hdx Hdy)).
  - rewrite HA. exact (on_curve_of_curve _ _ Hsum).
  - exact HA.
Qed.

(** The dedicated doubling of a valid point, through [Add P P]. *)
Lemma Double_values (P : ExtendedGroupElement) :
  valid P ->
  eZ (Extended.Double P) <> Zero /\
  on_curve (Extended.ToAffine (Extended.Double P)) /\
  Extended.ToAffine (Extended.Double P)
  = edwards_add (Extended.ToAffine P) (Extended.ToAffine P).
Proof.
  intros HP. destruct (Add_values P P HP HP) as (HZ & HC & HL).
  destruct (Add_self_scaled P HP) as (EX & EY & EZ & _). cbv zeta in *.
  assert (Hc : Neg four <> Zero).
  { intros H. apply Neg_eq_Zero in H. exact (four_neq_Zero H). }
  assert (HA : Extended.ToAffine (Extended.Add P P)
               = Extended.ToAffine (Extended.Double P)).
  { exact (Extended_ToAffine_scaled _ _ (Neg four) Hc EX EY EZ). }
  split; [|split].
  - intros H0. apply HZ. rewrite EZ, H0. ring.
  - rewrite <- HA. exact HC.
  - rewrite <- HA. exact HL.
Qed.

End CurveFacts.

(** ** Conversions, scaling and the variants of [ge.go] *)

Module ConversionFacts.
Import group GroupFacts CurveFacts.

Lemma Add_comm (P Q : ExtendedGroupElement) :
  Extended.Add P Q = Extended.Add Q P.
Proof. unfold Extended.Add. cbv zeta. f_equal; ring. Qed.

Lemma range_mod (x : Z) : 0 <= x < p -> x mod p = x.
Proof. intros H. apply Z.mod_small. exact H. Qed.

Lemma FromAffine_ToAffine (x y : Z) :
  Extended.ToAffine (Extended.FromAffine x y) = (x mod p, y mod p).
Proof.
  unfold Extended.ToAffine, Extended.FromAffine. cbv zeta. cbn [eX eY eZ eT].
  rewrite Invert_One, !Mul_One_r, !ToBig_FromBig. reflexivity.
Qed.

Lemma ToProjective_affine (P : ExtendedGroupElement) :
  Projective.ToAffine (Extended.ToProjective P) = Extended.ToAffine P.
Proof. reflexivity. Qed.

Lemma Projective_ToAffine_scaled (P : ProjectiveGroupElement)
      (Q : ExtendedGroupElement) (c : FieldElement) :
  c <> Zero ->
  eX Q = Mul c (pX P) -> eY Q = Mul c (pY P) -> eZ Q = Mul c (pZ P) ->
  Extended.ToAffine Q = Projective.ToAffine P.
Proof.
  intros Hc HX HY HZ. unfold Extended.ToAffine, Projective.ToAffine. cbv zeta.
  rewrite HX, HY, HZ, !scale_quotient by exact Hc. reflexivity.
Qed.

Lemma ToExtended_coordinates (Q : ProjectiveGroupElement) :
  Projective.ToExtended Q
  = mkExtended (Mul (pZ Q) (pX Q)) (Mul (pZ Q) (pY Q)) (Mul (pZ Q) (pZ Q))
               (Mul (pX Q) (pY Q)).
Proof.
  unfold Projective.ToExtended.
  cbv beta iota zeta delta
    [set_eX set_eY set_eZ set_eT eX eY eZ eT zeroExtended].
  rewrite Square_Mul. f_equal; ring.
Qed.

(** The inversion-free conversion keeps the affine point, also when [Z] is
    zero (both sides are then [(0, 0)]). *)
Lemma ToExtended_affine (Q : ProjectiveGroupElement) :
  Extended.ToAffine (Projective.ToExtended Q) = Projective.ToAffine Q.
Proof.
  rewrite ToExtended_coordinates.
  destruct (eq_dec_Zero (pZ Q)) as [Hz|Hz].
  - rewrite (Projective_ToAffine_Z_zero Q Hz).
    apply Extended_ToAffine_Z_zero. cbn [eZ]. rewrite Hz. ring.
  - apply (Projective_ToAffine_scaled Q _ (pZ Q) Hz); reflexivity.
Qed.

Lemma ToExtended_valid (Q : ProjectiveGroupElement) :
  valid_projective Q -> valid (Projective.ToExtended Q).
Proof.
  intros HQ. split; [apply cross_ToExtended|].
  rewrite ToExtended_affine. exact HQ.
Qed.

Lemma DoubleZ1_ignores_Z (P : ProjectiveGroupElement) (z : FieldElement) :
  Projective.DoubleZ1 (set_pZ z P) = Projective.DoubleZ1 P.
Proof. reflexivity. Qed.

Lemma DoubleZ1_values (P : ProjectiveGroupElement) :
  valid_projective P -> pZ P = One ->
  pZ (Projective.DoubleZ1 P) <> Zero /\
  valid_projective (Projective.DoubleZ1 P) /\
  Projective.ToAffine (Projective.DoubleZ1 P)
  = edwards_add (Projective.ToAffine P) (Projective.ToAffine P).
Proof.
  intros HP HZ. rewrite (DoubleZ1_as_extended P HZ).
  pose proof (ToExtended_valid P HP) as HE.
  destruct (Double_values _ HE) as (H1 & H2 & H3).
  rewrite ToExtended_affine in H3.
  split; [exact H1|]. split; [exact H2|exact H3].
Qed.

Lemma scale_affine (c : FieldElement) (P : ExtendedGroupElement) :
  c <> Zero ->
  Extended.ToAffine (scaleExtended c P) = Extended.ToAffine P.
Proof.
  intros Hc.
  apply (Extended_ToAffine_scaled _ _ c Hc); reflexivity.
Qed.

Lemma Add_scale_l (c : FieldElement) (P Q : ExtendedGroupElement) :
  Extended.Add (scaleExtended c P) Q
  = scaleExtended (Mul c c) (Extended.Add P Q).
Proof.
  unfold Extended.Add, scaleExtended. cbv zeta. cbn [eX eY eZ eT].
  f_equal; ring.
Qed.

Lemma Double_scale (c : FieldElement) (P : ExtendedGroupElement) :
  Extended.Double (scaleExtended c P)
  = scaleExtended (Mul (Mul c c) (Mul c c)) (Extended.Double P).
Proof.
  unfold Extended.Double, scaleExtended. cbv zeta. cbn [eX eY eZ eT].
  rewrite !Square_Mul. f_equal; ring.
Qed.

Lemma legacy_DoubleZ1_eq (P : ProjectiveGroupElement) :
  legacy.Projective_DoubleZ1 P = Projective.DoubleZ1 P.
Proof.
  unfold legacy.Projective_DoubleZ1, Projective.DoubleZ1.
  cbv beta iota zeta delta
    [set_pX set_pY set_pZ pX pY pZ zeroProjective].
  destruct P as [X Y Z_]. rewrite !Square_Mul. f_equal; ring.
Qed.

Lemma legacy_FromAffine_ToExtended (x y : Z) :
  Projective.ToExtended (legacy.Projective_FromAffine x y)
  = Extended.FromAffine x y.
Proof.
  rewrite ToExtended_coordinates.
  unfold legacy.Projective_FromAffine, Extended.FromAffine. cbv zeta.
  cbn [pX pY pZ]. f_equal; ring.
Qed.

Lemma legacy_FromAffine_ToAffine (x y : Z) :
  Projective.ToAffine (legacy.Projective_FromAffine x y) = (x mod p, y mod p).
Proof.
  unfold Projective.ToAffine, legacy.Projective_FromAffine. cbv zeta.
  cbn [pX pY pZ].
  rewrite Invert_One, !Mul_One_r, !ToBig_FromBig. reflexivity.
Qed.

Lemma legacy_ToExtended_scaled (P : ProjectiveGroupElement) :
  pZ P <> Zero ->
  Projective.ToExtended P
  = scaleExtended (pZ P) (legacy.Projective_ToExtended P).
Proof.
  intros Hz. rewrite ToExtended_coordinates.
  unfold legacy.Projective_ToExtended, scaleExtended.
  cbv beta iota zeta delta
    [set_eX set_eY set_eZ set_eT eX eY eZ eT zeroExtended Set_].
  pose proof (Mul_Invert (pZ P) Hz) as Hu.
  f_equal.
  transitivity (Mul (Mul (pX P) (pY P)) (Mul (pZ P) (Invert (pZ P))));
    [rewrite Hu|]; ring.
Qed.

Lemma Zero_valid : valid Extended.Zero.
Proof. split; vm_compute; reflexivity. Qed.

End ConversionFacts.

(** ** Panics on the store *)

Module PanicFacts.
Import mem MemFacts.

Lemma bind_fail {A B : Type} (m : M A) (k : A -> M B) (s : store) :
  m s = None -> bind m k s = None.
Proof. intros H. unfold bind. rewrite H. reflexivity. Qed.

Lemma loadE_fail (l : ptr) f (s : store) :
  exts s !! l = None -> loadE l f s = None.
Proof. intros H. unfold loadE. rewrite H. reflexivity. Qed.

Lemma op2_fail_l c f (a b : M FieldElement) (s : store) :
  a s = None -> op2 c f a b s = None.
Proof. intros H. unfold op2. apply bind_fail. exact H. Qed.

Lemma op2_fail_r c f (a b : M FieldElement) (s : store) (x : FieldElement) :
  a s = Some (x, s) -> b s = None -> op2 c f a b s = None.
Proof.
  intros Ha Hb. unfold op2. rewrite (bind_run _ _ _ _ _ Ha).
  apply bind_fail. exact Hb.
Qed.

Lemma storeE_fail l set (m : M FieldElement) (s s' : store) a :
  m s = Some (a, s') -> exts s' !! l = None -> storeE l set m s = None.
Proof. intros Hm He. unfold storeE, bind. rewrite Hm, He. reflexivity. Qed.

Lemma Extended_Add_nil_p1 (s : store) (v p1 p2 : ptr) :
  exts s !! p1 = None -> mem.Extended.Add v p1 p2 s = None.
Proof.
  intros H. unfold mem.Extended.Add. apply bind_fail.
  unfold fSub. apply op2_fail_l, loadE_fail, H.
Qed.

Lemma Extended_Add_nil_p2 (s : store) (v p1 p2 : ptr) (P1 : ExtendedGroupElement) :
  exts s !! p1 = Some P1 -> exts s !! p2 = None ->
  mem.Extended.Add v p1 p2 s = None.
Proof.
  intros H1 H2. unfold mem.Extended.Add.
  unfold fAdd, fSub, fMul. run_step.
  apply bind_fail. apply op2_fail_l, loadE_fail. cbn [exts]. exact H2.
Qed.

Lemma Extended_Add_nil_v (s : store) (v p1 p2 : ptr)
      (P1 P2 : ExtendedGroupElement) :
  exts s !! p1 = Some P1 -> exts s !! p2 = Some P2 -> exts s !! v = None ->
  mem.Extended.Add v p1 p2 s = None.
Proof.
  intros H1 H2 Hv. unfold mem.Extended.Add.
  unfold fAdd, fSub, fMul. do 14 run_step.
  apply bind_fail. eapply storeE_fail; [prim_tac|]. cbn [exts]. exact Hv.
Qed.

End PanicFacts.

(** ** The properties of the specification *)

Import mem MemFacts GroupFacts.

(** C1. For every valid extended point [P] (cross-invariant [T*Z = X*Y],
    affine point on the curve), [Add(P, P)] and [Double(P)] stand for the
    same affine point: the unified addition on equal arguments agrees with
    the dedicated doubling. *)
Theorem C1_Add_self_agrees_with_Double (P : ExtendedGroupElement) :
  valid P ->
  group.Extended.ToAffine (group.Extended.Add P P)
  = group.Extended.ToAffine (group.Extended.Double P).
Proof.
  intros HP. destruct (Add_self_scaled P HP) as (HX & HY & HZ & _).
  apply (Extended_ToAffine_scaled _ _ (Neg four));
    [ | exact HX | exact HY | exact HZ ].
  intros H. apply Neg_eq_Zero in H. exact (four_neq_Zero H).
Qed.

Lemma C1_witness :
  valid B_extended /\
  group.Extended.ToAffine (group.Extended.Add B_extended B_extended)
  = group.Extended.ToAffine (group.Extended.Double B_extended).
Proof.
  split.
  - split; vm_compute; reflexivity.
  - apply (C1_Add_self_agrees_with_Double B_extended).
    split; vm_compute; reflexivity.
Defined.

(** C2. [ProjectiveGroupElement.FromAffine(x, y)] is claimed to set
    [X = x mod p], [Y = y mod p] and [Z = 1].  On the base point the code
    sets [X] and [Y] as claimed but leaves [Z = 0], not [1]; the point
    converts back to the affine pair [(0, 0)].  The sibling function of
    [ge.go] does set [Z = 1]. *)
Theorem C2_Projective_FromAffine_leaves_Z_zero :
  group.Projective.FromAffine Bx By
  = mkProjective (FromBig Bx) (FromBig By) Zero /\
  pZ (group.Projective.FromAffine Bx By) <> One /\
  group.Projective.ToAffine (group.Projective.FromAffine Bx By) = (0, 0) /\
  legacy.Projective_FromAffine Bx By
  = mkProjective (FromBig Bx) (FromBig By) One.
Proof.
  split; [reflexivity|]. split; [|split; [|reflexivity]].
  - cbn [pZ group.Projective.FromAffine]. intros H. symmetry in H.
    exact (One_neq_Zero H).
  - apply Projective_ToAffine_Z_zero. reflexivity.
Qed.

(** C3. For every projective point [(X, Y, Z)] behind the receiver,
    [ToExtended] returns a new extended point
    [(X' = X*Z, Y' = Y*Z, T' = X*Y, Z' = Z^2)], computed with exactly three
    multiplications, one squaring and no inversion (and no other field
    arithmetic). *)
Theorem C3_ToExtended_inversion_free
        (s : store) (v : ptr) (V : ProjectiveGroupElement) :
  projs s !! v = Some V ->
  mem.Projective.ToExtended v s
  = Some (length (exts s),
          mkStore (exts s ++ [ {| eX := Mul (pX V) (pZ V);
                                  eY := Mul (pY V) (pZ V);
                                  eZ := Square (pZ V);
                                  eT := Mul (pX V) (pY V) |} ])
                  (projs s)
                  (ops_plus (cost s)
                     {| muls := 3; squares := 1; inverts := 0;
                        adds := 0; subs := 0; negs := 0 |})).
Proof. intros Hv. rewrite (Projective_ToExtended_run s v V Hv). reflexivity. Qed.

Lemma C3_witness :
  projs store_B !! 0%nat = Some B_projective /\
  mem.Projective.ToExtended 0%nat store_B
  = Some (length (exts store_B),
          mkStore (exts store_B
                   ++ [ {| eX := Mul (pX B_projective) (pZ B_projective);
                           eY := Mul (pY B_projective) (pZ B_projective);
                           eZ := Square (pZ B_projective);
                           eT := Mul (pX B_projective) (pY B_projective) |} ])
                  (projs store_B)
                  (ops_plus (cost store_B)
                     {| muls := 3; squares := 1; inverts := 0;
                        adds := 0; subs := 0; negs := 0 |})).
Proof.
  split; [reflexivity|].
  apply (C3_ToExtended_inversion_free store_B 0%nat B_projective).
  reflexivity.
Defined.

(** C4. [ExtendedGroupElement.Double] computes the dedicated doubling
    formula directly: with [A = X^2], [B = Y^2], [C = 2*Z^2], [D = -A],
    [E = (X+Y)^2 - A - B], [G = D+B], [F = G-C], [H = D-B] the receiver
    becomes [X' = E*F], [Y' = G*H], [T' = E*H], [Z' = F*G], for every
    extended point; no projective object is created on the way and the
    field operations are four multiplications, four squarings, three
    additions, four subtractions and one negation. *)
Theorem C4_Double_dedicated_formula
        (s : store) (v : ptr) (V : ExtendedGroupElement) :
  exts s !! v = Some V ->
  mem.Extended.Double v s
  = Some (v, mkStore (<[v := Double_formula V]> (exts s)) (projs s)
                     (ops_plus (cost s)
                        {| muls := 4; squares := 4; inverts := 0;
                           adds := 3; subs := 4; negs := 1 |})).
Proof.
  intros Hv. rewrite (Extended_Double_run s v V Hv), Double_is_formula.
  reflexivity.
Qed.

Lemma C4_witness :
  exts store_B !! 0%nat = Some B_extended /\
  mem.Extended.Double 0%nat store_B
  = Some (0%nat,
          mkStore (<[0%nat := Double_formula B_extended]> (exts store_B))
                  (projs store_B)
                  (ops_plus (cost store_B)
                     {| muls := 4; squares := 4; inverts := 0;
                        adds := 3; subs := 4; negs := 1 |})).
Proof.
  split; [reflexivity|].
  apply (C4_Double_dedicated_formula store_B 0%nat B_extended).
  reflexivity.
Defined.

(** C5. [ExtendedGroupElement.Add] is aliasing-safe.  Whatever the
    receiver [v] and the arguments [p1], [p2] point to (nothing here assumes
    the three pointers differ), the call leaves in the receiver the sum of
    the values that [p1] and [p2] held before the call, computed on two
    independent values: in particular [v.Add(v, v)] stores [Add V V], and
    likewise when [v] is only one of the two arguments.  Nothing else in the
    store changes. *)
Theorem C5_Add_aliasing_safe
        (s : store) (v p1 p2 : ptr) (V P1 P2 : ExtendedGroupElement) :
  exts s !! v = Some V -> exts s !! p1 = Some P1 -> exts s !! p2 = Some P2 ->
  mem.Extended.Add v p1 p2 s
  = Some (v, mkStore (<[v := group.Extended.Add P1 P2]> (exts s)) (projs s)
                     (ops_plus (cost s)
                        {| muls := 9; squares := 0; inverts := 0;
                           adds := 5; subs := 4; negs := 0 |})).
Proof. intros Hv H1 H2. exact (Extended_Add_run s v p1 p2 V P1 P2 Hv H1 H2). Qed.

Lemma C5_witness :
  exts store_B !! 0%nat = Some B_extended /\
  mem.Extended.Add 0%nat 0%nat 0%nat store_B
  = Some (0%nat,
          mkStore (<[0%nat := group.Extended.Add B_extended B_extended]>
                     (exts store_B))
                  (projs store_B)
                  (ops_plus (cost store_B)
                     {| muls := 9; squares := 0; inverts := 0;
                        adds := 5; subs := 4; negs := 0 |})).
Proof.
  split; [reflexivity|].
  apply (C5_Add_aliasing_safe store_B 0%nat 0%nat 0%nat
           B_extended B_extended B_extended); reflexivity.
Defined.

(** C6. The cross-invariant [T*Z = X*Y] holds for the output of every
    operation that produces an extended point: [Zero], [FromAffine], [Add],
    [Double] and the projective [ToExtended], for all their inputs; [Add]
    and [Double] need no assumption on their arguments. *)
Theorem C6_cross_invariant_of_outputs :
  cross group.Extended.Zero /\
  (forall x y : Z, cross (group.Extended.FromAffine x y)) /\
  (forall p1 p2 : ExtendedGroupElement, cross (group.Extended.Add p1 p2)) /\
  (forall v : ExtendedGroupElement, cross (group.Extended.Double v)) /\
  (forall v : ProjectiveGroupElement, cross (group.Projective.ToExtended v)).
Proof.
  split; [|split; [|split; [|split]]].
  - exact cross_Zero.
  - exact cross_FromAffine.
  - exact cross_Add.
  - exact cross_Double.
  - exact cross_ToExtended.
Qed.

(** C7. The element [(0, 1, 1, 0)] that [Zero] produces is a two-sided
    identity of [Add]: for every valid extended point [P], [Add(P, Zero())]
    and [Add(Zero(), P)] stand for the same affine point as [P]. *)
Theorem C7_Zero_is_identity (P : ExtendedGroupElement) :
  valid P ->
  group.Extended.Zero = mkExtended Zero One One Zero /\
  group.Extended.ToAffine (group.Extended.Add P group.Extended.Zero)
  = group.Extended.ToAffine P /\
  group.Extended.ToAffine (group.Extended.Add group.Extended.Zero P)
  = group.Extended.ToAffine P.
Proof.
  intros _. split; [reflexivity|]. split.
  - apply Add_Zero_r_affine.
  - apply Add_Zero_l_affine.
Qed.

Lemma C7_witness :
  valid B_extended /\
  group.Extended.Zero = mkExtended Zero One One Zero /\
  group.Extended.ToAffine (group.Extended.Add B_extended group.Extended.Zero)
  = group.Extended.ToAffine B_extended /\
  group.Extended.ToAffine (group.Extended.Add group.Extended.Zero B_extended)
  = group.Extended.ToAffine B_extended.
Proof.
  split.
  - split; vm_compute; reflexivity.
  - apply (C7_Zero_is_identity B_extended). split; vm_compute; reflexivity.
Defined.

(** C8. For every valid projective point [P] with [Z = 1], [DoubleZ1(P)]
    stands for the same affine point as the general doubling through the
    extended path: [ToExtended], the dedicated [Double], and back.  The two
    even agree coordinate by coordinate. *)
Theorem C8_DoubleZ1_agrees_with_extended_path (P : ProjectiveGroupElement) :
  valid_projective P -> pZ P = One ->
  group.Projective.ToAffine (group.Projective.DoubleZ1 P)
  = group.Extended.ToAffine
      (group.Extended.Double (group.Projective.ToExtended P)) /\
  group.Projective.DoubleZ1 P
  = group.Extended.ToProjective
      (group.Extended.Double (group.Projective.ToExtended P)).
Proof.
  intros _ HZ. rewrite (DoubleZ1_as_extended P HZ). split; reflexivity.
Qed.

Lemma C8_witness :
  valid_projective B_projective /\ pZ B_projective = One /\
  group.Projective.ToAffine (group.Projective.DoubleZ1 B_projective)
  = group.Extended.ToAffine
      (group.Extended.Double (group.Projective.ToExtended B_projective)) /\
  group.Projective.DoubleZ1 B_projective
  = group.Extended.ToProjective
      (group.Extended.Double (group.Projective.ToExtended B_projective)).
Proof.
  split; [vm_compute; reflexivity|]. split; [reflexivity|].
  apply (C8_DoubleZ1_agrees_with_extended_path B_projective).
  - vm_compute; reflexivity.
  - reflexivity.
Defined.

(** C9. [ToAffine] on a point whose [Z] is zero returns the pair [(0, 0)]
    and nothing signals a failure, for the extended and for the projective
    function each on its own: the call returns normally, the objects are
    untouched, and the only work is one inversion (of zero, which gives
    zero) and two multiplications. *)
Theorem C9_ToAffine_of_Z_zero :
  Invert Zero = Zero /\
  (forall (s : store) (v : ptr) (E : ExtendedGroupElement),
     exts s !! v = Some E -> eZ E = Zero ->
     mem.Extended.ToAffine v s
     = Some ((0, 0), mkStore (exts s) (projs s)
                       (ops_plus (cost s)
                          {| muls := 2; squares := 0; inverts := 1;
                             adds := 0; subs := 0; negs := 0 |}))) /\
  (forall (s : store) (v : ptr) (P : ProjectiveGroupElement),
     projs s !! v = Some P -> pZ P = Zero ->
     mem.Projective.ToAffine v s
     = Some ((0, 0), mkStore (exts s) (projs s)
                       (ops_plus (cost s)
                          {| muls := 2; squares := 0; inverts := 1;
                             adds := 0; subs := 0; negs := 0 |}))).
Proof.
  split; [exact Invert_Zero|]. split.
  - intros s v E He HEz. rewrite (Extended_ToAffine_run s v E He).
    rewrite (Extended_ToAffine_Z_zero E HEz). reflexivity.
  - intros s v P Hp HPz. rewrite (Projective_ToAffine_run s v P Hp).
    rewrite (Projective_ToAffine_Z_zero P HPz). reflexivity.
Qed.

Lemma C9_witness :
  mem.Extended.ToAffine 0%nat
    (mkStore [mkExtended One One Zero One] [] no_ops)
  = Some ((0, 0), mkStore [mkExtended One One Zero One] []
                    (ops_plus no_ops
                       {| muls := 2; squares := 0; inverts := 1;
                          adds := 0; subs := 0; negs := 0 |})) /\
  mem.Projective.ToAffine 0%nat
    (mkStore [] [group.Projective.FromAffine Bx By] no_ops)
  = Some ((0, 0), mkStore [] [group.Projective.FromAffine Bx By]
                    (ops_plus no_ops
                       {| muls := 2; squares := 0; inverts := 1;
                          adds := 0; subs := 0; negs := 0 |})).
Proof.
  split.
  - apply (proj1 (proj2 C9_ToAffine_of_Z_zero)
             (mkStore [mkExtended One One Zero One] [] no_ops) 0%nat
             (mkExtended One One Zero One)); reflexivity.
  - apply (proj2 (proj2 C9_ToAffine_of_Z_zero)
             (mkStore [] [group.Projective.FromAffine Bx By] no_ops) 0%nat
             (group.Projective.FromAffine Bx By)); reflexivity.
Defined.

(** C10. [ProjectiveGroupElement.DoubleZ1] returns a pointer to a freshly
    allocated point and leaves the receiver as it was, for every projective
    point behind the receiver, whatever its [Z]: the returned pointer was
    not allocated before and differs from the receiver, it holds the
    doubled value, and every object that existed before the call, the
    receiver included, is unchanged. *)
Theorem C10_DoubleZ1_returns_fresh_point
        (s : store) (v : ptr) (V : ProjectiveGroupElement) :
  projs s !! v = Some V ->
  exists (q : ptr) (s' : store),
    mem.Projective.DoubleZ1 v s = Some (q, s') /\
    projs s !! q = None /\
    q <> v /\
    projs s' !! q = Some (group.Projective.DoubleZ1 V) /\
    projs s' !! v = Some V /\
    (forall l : ptr, l <> q -> projs s' !! l = projs s !! l) /\
    exts s' = exts s.
Proof.
  intros Hv. pose proof (lookup_lt_Some _ _ _ Hv) as Hlt.
  eexists _, _. split; [exact (Projective_DoubleZ1_run s v V Hv)|].
  cbn [projs exts]. split; [|split; [|split; [|split; [|split]]]].
  - apply lookup_ge_None. lia.
  - lia.
  - apply lookup_fresh.
  - apply lookup_old. exact Hv.
  - intros l Hl. destruct (lt_dec l (length (projs s))) as [Hl'|Hl'].
    + apply lookup_app_l. exact Hl'.
    + rewrite !lookup_ge_None_2; [reflexivity | lia |].
      rewrite length_app. cbn [length]. lia.
  - reflexivity.
Qed.

Lemma C10_witness :
  projs store_B !! 0%nat = Some B_projective /\
  exists (q : ptr) (s' : store),
    mem.Projective.DoubleZ1 0%nat store_B = Some (q, s') /\
    projs store_B !! q = None /\
    q <> 0%nat /\
    projs s' !! q = Some (group.Projective.DoubleZ1 B_projective) /\
    projs s' !! 0%nat = Some B_projective /\
    (forall l : ptr, l <> q -> projs s' !! l = projs store_B !! l) /\
    exts s' = exts store_B.
Proof.
  split; [reflexivity|].
  apply (C10_DoubleZ1_returns_fresh_point store_B 0%nat B_projective).
  reflexivity.
Defined.

(** ** Further properties of the package *)

Import CurveFacts ConversionFacts PanicFacts.

(** X1. Round trip through the receiver: for canonical [x] and [y] (in
    [[0, p)]), [v.FromAffine(x, y)] followed by [v.ToAffine()] returns
    [(x, y)], whatever the receiver held before; the receiver then holds
    [(x, y, 1, x*y)] and the work is three multiplications and one
    inversion. *)
Theorem X1_Extended_FromAffine_ToAffine_round_trip
        (s : store) (v : ptr) (V : ExtendedGroupElement) (x y : Z) :
  exts s !! v = Some V -> 0 <= x < p -> 0 <= y < p ->
  bind (mem.Extended.FromAffine v x y) (fun _ => mem.Extended.ToAffine v) s
  = Some ((x, y),
          mkStore (<[v := mkExtended (FromBig x) (FromBig y) One
                                     (Mul (FromBig x) (FromBig y))]> (exts s))
                  (projs s)
                  (ops_plus (cost s)
                     {| muls := 3; squares := 0; inverts := 1;
                        adds := 0; subs := 0; negs := 0 |})).
Proof.
  intros Hv Hx Hy.
  rewrite (bind_run _ _ _ _ _ (Extended_FromAffine_run s v x y V Hv)).
  erewrite Extended_ToAffine_run
    by (cbn [exts]; eapply lookup_insert_same; exact Hv).
  rewrite FromAffine_ToAffine, (range_mod x Hx), (range_mod y Hy).
  cbn [exts projs cost]. rewrite ops_plus_assoc. reflexivity.
Qed.

Lemma X1_witness :
  bind (mem.Extended.FromAffine 0%nat Bx By)
       (fun _ => mem.Extended.ToAffine 0%nat) store_Z0
  = Some ((Bx, By),
          mkStore (<[0%nat := mkExtended (FromBig Bx) (FromBig By) One
                                (Mul (FromBig Bx) (FromBig By))]>
                     (exts store_Z0))
                  (projs store_Z0)
                  (ops_plus (cost store_Z0)
                     {| muls := 3; squares := 0; inverts := 1;
                        adds := 0; subs := 0; negs := 0 |})).
Proof.
  apply (X1_Extended_FromAffine_ToAffine_round_trip store_Z0 0%nat
           (mkExtended One One Zero One) Bx By).
  - reflexivity.
  - vm_compute. split; [discriminate | reflexivity].
  - vm_compute. split; [discriminate | reflexivity].
Defined.

(** X2. The unified addition is commutative on the nose: [Add(P, Q)] and
    [Add(Q, P)] have the same four coordinates, for all extended points. *)
Theorem X2_Add_commutative (P Q : ExtendedGroupElement) :
  group.Extended.Add P Q = group.Extended.Add Q P.
Proof. apply Add_comm. Qed.

(** X3. [Add] keeps the representation invariants: the sum of two valid
    points is valid, and in particular its [Z] is not zero (the law is
    complete, since [d] is not a square). *)
Theorem X3_Add_of_valid_points_is_valid (P Q : ExtendedGroupElement) :
  valid P -> valid Q ->
  valid (group.Extended.Add P Q) /\ eZ (group.Extended.Add P Q) <> Zero.
Proof.
  intros HP HQ. destruct (Add_values P Q HP HQ) as (HZ & HC & _).
  split; [|exact HZ]. split; [apply cross_Add | exact HC].
Qed.

Lemma X3_witness :
  valid B_extended /\ valid group.Extended.Zero /\
  valid (group.Extended.Add B_extended group.Extended.Zero) /\
  eZ (group.Extended.Add B_extended group.Extended.Zero) <> Zero.
Proof.
  split; [split; vm_compute; reflexivity|].
  split; [split; vm_compute; reflexivity|].
  apply (X3_Add_of_valid_points_is_valid B_extended group.Extended.Zero);
    split; vm_compute; reflexivity.
Defined.

(** X4. [Add] computes the addition law of the curve: for valid [P] and [Q]
    with affine points [(x1, y1)] and [(x2, y2)], the affine point of
    [Add(P, Q)] is [((x1*y2 + x2*y1) / (1 + d*x1*x2*y1*y2),
    (y1*y2 + x1*x2) / (1 - d*x1*x2*y1*y2))]. *)
Theorem X4_Add_computes_the_addition_law (P Q : ExtendedGroupElement) :
  valid P -> valid Q ->
  group.Extended.ToAffine (group.Extended.Add P Q)
  = edwards_add (group.Extended.ToAffine P) (group.Extended.ToAffine Q).
Proof.
  intros HP HQ. destruct (Add_values P Q HP HQ) as (_ & _ & HL). exact HL.
Qed.

Lemma X4_witness :
  valid B_extended /\ valid group.Extended.Zero /\
  group.Extended.ToAffine (group.Extended.Add B_extended group.Extended.Zero)
  = edwards_add (group.Extended.ToAffine B_extended)
                (group.Extended.ToAffine group.Extended.Zero).
Proof.
  split; [split; vm_compute; reflexivity|].
  split; [split; vm_compute; reflexivity|].
  apply (X4_Add_computes_the_addition_law B_extended group.Extended.Zero);
    split; vm_compute; reflexivity.
Defined.

(** X5. The dedicated doubling of a valid point is valid, with [Z] not
    zero, and its affine point is the curve's sum of the point with
    itself. *)
Theorem X5_Double_doubles (P : ExtendedGroupElement) :
  valid P ->
  valid (group.Extended.Double P) /\
  eZ (group.Extended.Double P) <> Zero /\
  group.Extended.ToAffine (group.Extended.Double P)
  = edwards_add (group.Extended.ToAffine P) (group.Extended.ToAffine P).
Proof.
  intros HP. destruct (Double_values P HP) as (HZ & HC & HL).
  split; [split; [apply cross_Double | exact HC]|].
  split; [exact HZ | exact HL].
Qed.

Lemma X5_witness :
  valid B_extended /\
  valid (group.Extended.Double B_extended) /\
  eZ (group.Extended.Double B_extended) <> Zero /\
  group.Extended.ToAffine (group.Extended.Double B_extended)
  = edwards_add (group.Extended.ToAffine B_extended)
                (group.Extended.ToAffine B_extended).
Proof.
  split; [split; vm_compute; reflexivity|].
  apply (X5_Double_doubles B_extended). split; vm_compute; reflexivity.
Defined.

(** X6. On a projective point of the curve with [Z = 1], [DoubleZ1]
    returns a point of the curve with [Z] not zero whose affine point is
    the curve's sum of the input with itself. *)
Theorem X6_DoubleZ1_doubles (P : ProjectiveGroupElement) :
  valid_projective P -> pZ P = One ->
  pZ (group.Projective.DoubleZ1 P) <> Zero /\
  valid_projective (group.Projective.DoubleZ1 P) /\
  group.Projective.ToAffine (group.Projective.DoubleZ1 P)
  = edwards_add (group.Projective.ToAffine P) (group.Projective.ToAffine P).
Proof. intros HP HZ. exact (DoubleZ1_values P HP HZ). Qed.

Lemma X6_witness :
  valid_projective B_projective /\ pZ B_projective = One /\
  pZ (group.Projective.DoubleZ1 B_projective) <> Zero /\
  valid_projective (group.Projective.DoubleZ1 B_projective) /\
  group.Projective.ToAffine (group.Projective.DoubleZ1 B_projective)
  = edwards_add (group.Projective.ToAffine B_projective)
                (group.Projective.ToAffine B_projective).
Proof.
  split; [vm_compute; reflexivity|]. split; [reflexivity|].
  apply (X6_DoubleZ1_doubles B_projective).
  - vm_compute. reflexivity.
  - reflexivity.
Defined.

(** X7. [DoubleZ1] never reads the receiver's [Z]: the result is the same
    for every value of that field, so on [Z <> 1] it doubles [(X : Y : 1)]
    and not the point given. *)
Theorem X7_DoubleZ1_ignores_Z (P : ProjectiveGroupElement) (z : FieldElement) :
  group.Projective.DoubleZ1 (mkProjective (pX P) (pY P) z)
  = group.Projective.DoubleZ1 P.
Proof. exact (DoubleZ1_ignores_Z P z). Qed.

(** X8. Extended to projective and back: [ToExtended(ToProjective(P))]
    is [(Z*X, Z*Y, Z*Z, X*Y)], for every extended point [P = (X, Y, Z, T)]:
    it has the affine point of [P] and satisfies the cross-invariant even
    if [P] did not (the [T] of [P] is discarded and rebuilt). *)
Theorem X8_ToProjective_ToExtended_round_trip (P : ExtendedGroupElement) :
  group.Projective.ToExtended (group.Extended.ToProjective P)
  = mkExtended (Mul (eZ P) (eX P)) (Mul (eZ P) (eY P)) (Mul (eZ P) (eZ P))
               (Mul (eX P) (eY P)) /\
  group.Extended.ToAffine
    (group.Projective.ToExtended (group.Extended.ToProjective P))
  = group.Extended.ToAffine P /\
  cross (group.Projective.ToExtended (group.Extended.ToProjective P)).
Proof.
  split; [|split].
  - rewrite ToExtended_coordinates. reflexivity.
  - rewrite ToExtended_affine. apply ToProjective_affine.
  - apply cross_ToExtended.
Qed.

(** X9. The inversion-free [ToExtended] turns a projective point of the
    curve into a valid extended point with the same affine point. *)
Theorem X9_ToExtended_of_curve_point (Q : ProjectiveGroupElement) :
  valid_projective Q ->
  valid (group.Projective.ToExtended Q) /\
  group.Extended.ToAffine (group.Projective.ToExtended Q)
  = group.Projective.ToAffine Q.
Proof.
  intros HQ. split; [exact (ToExtended_valid Q HQ) | apply ToExtended_affine].
Qed.

Lemma X9_witness :
  valid_projective B_projective /\
  valid (group.Projective.ToExtended B_projective) /\
  group.Extended.ToAffine (group.Projective.ToExtended B_projective)
  = group.Projective.ToAffine B_projective.
Proof.
  split; [vm_compute; reflexivity|].
  apply (X9_ToExtended_of_curve_point B_projective). vm_compute. reflexivity.
Defined.

(** X10. [Add] and [Double] are homogeneous: for every [c], multiplying
    every coordinate of an argument by [c] multiplies every coordinate of
    the result by [c^2] (for [Add], in either argument) or [c^4] (for
    [Double]); for [c <> 0] the affine point of the result is therefore
    unchanged, for [Add] in either argument and for [Double]. *)
Theorem X10_Add_and_Double_respect_scaling
        (c : FieldElement) (P Q : ExtendedGroupElement) :
  group.Extended.Add (scaleExtended c P) Q
  = scaleExtended (Mul c c) (group.Extended.Add P Q) /\
  group.Extended.Add P (scaleExtended c Q)
  = scaleExtended (Mul c c) (group.Extended.Add P Q) /\
  group.Extended.Double (scaleExtended c P)
  = scaleExtended (Mul (Mul c c) (Mul c c)) (group.Extended.Double P) /\
  (c <> Zero ->
   group.Extended.ToAffine (group.Extended.Add (scaleExtended c P) Q)
   = group.Extended.ToAffine (group.Extended.Add P Q) /\
   group.Extended.ToAffine (group.Extended.Add P (scaleExtended c Q))
   = group.Extended.ToAffine (group.Extended.Add P Q) /\
   group.Extended.ToAffine (group.Extended.Double (scaleExtended c P))
   = group.Extended.ToAffine (group.Extended.Double P)).
Proof.
  assert (HR : group.Extended.Add P (scaleExtended c Q)
               = scaleExtended (Mul c c) (group.Extended.Add P Q)).
  { rewrite (Add_comm P (scaleExtended c Q)), Add_scale_l, (Add_comm Q P).
    reflexivity. }
  split; [apply Add_scale_l|]. split; [exact HR|].
  split; [apply Double_scale|].
  intros Hc.
  assert (Hcc : Mul c c <> Zero) by exact (Mul_neq_Zero _ _ Hc Hc).
  split; [|split].
  - rewrite Add_scale_l. apply scale_affine. exact Hcc.
  - rewrite HR. apply scale_affine. exact Hcc.
  - rewrite Double_scale. apply scale_affine.
    exact (Mul_neq_Zero _ _ Hcc Hcc).
Qed.

Lemma X10_witness :
  Two <> Zero /\
  group.Extended.Add (scaleExtended Two B_extended) group.Extended.Zero
  = scaleExtended (Mul Two Two)
      (group.Extended.Add B_extended group.Extended.Zero) /\
  group.Extended.Add B_extended (scaleExtended Two group.Extended.Zero)
  = scaleExtended (Mul Two Two)
      (group.Extended.Add B_extended group.Extended.Zero) /\
  group.Extended.Double (scaleExtended Two B_extended)
  = scaleExtended (Mul (Mul Two Two) (Mul Two Two))
                  (group.Extended.Double B_extended) /\
  group.Extended.ToAffine
    (group.Extended.Add (scaleExtended Two B_extended) group.Extended.Zero)
  = group.Extended.ToAffine
      (group.Extended.Add B_extended group.Extended.Zero) /\
  group.Extended.ToAffine
    (group.Extended.Add B_extended (scaleExtended Two group.Extended.Zero))
  = group.Extended.ToAffine
      (group.Extended.Add B_extended group.Extended.Zero) /\
  group.Extended.ToAffine (group.Extended.Double (scaleExtended Two B_extended))
  = group.Extended.ToAffine (group.Extended.Double B_extended).
Proof.
  assert (H : Two <> Zero).
  { intros E. apply (f_equal ToBig) in E. vm_compute in E. discriminate. }
  split; [exact H|].
  destruct (X10_Add_and_Double_respect_scaling Two B_extended
              group.Extended.Zero) as (H1 & H2 & H3 & H4).
  split; [exact H1|]. split; [exact H2|]. split; [exact H3|].
  exact (H4 H).
Defined.

(** X11. The two files' [DoubleZ1] agree on every input: building
    [(X+Y)^2] as [X^2 + Y^2 + 2*X*Y], as [ge.go] does, changes nothing. *)
Theorem X11_DoubleZ1_variants_agree (P : ProjectiveGroupElement) :
  legacy.Projective_DoubleZ1 P = group.Projective.DoubleZ1 P.
Proof. apply legacy_DoubleZ1_eq. Qed.

(** X12. The projective [FromAffine] of [ge.go] round-trips: for canonical
    [x] and [y] it builds [(x, y, 1)], [ToAffine] gives back [(x, y)], and
    [ToExtended] of it is exactly the point that the extended [FromAffine]
    builds. *)
Theorem X12_legacy_FromAffine_round_trip (x y : Z) :
  0 <= x < p -> 0 <= y < p ->
  pZ (legacy.Projective_FromAffine x y) = One /\
  group.Projective.ToAffine (legacy.Projective_FromAffine x y) = (x, y) /\
  group.Projective.ToExtended (legacy.Projective_FromAffine x y)
  = group.Extended.FromAffine x y.
Proof.
  intros Hx Hy. split; [reflexivity|]. split.
  - rewrite legacy_FromAffine_ToAffine, (range_mod x Hx), (range_mod y Hy).
    reflexivity.
  - apply legacy_FromAffine_ToExtended.
Qed.

Lemma X12_witness :
  pZ (legacy.Projective_FromAffine Bx By) = One /\
  group.Projective.ToAffine (legacy.Projective_FromAffine Bx By) = (Bx, By) /\
  group.Projective.ToExtended (legacy.Projective_FromAffine Bx By)
  = group.Extended.FromAffine Bx By.
Proof.
  apply (X12_legacy_FromAffine_round_trip Bx By);
    vm_compute; (split; [discriminate | reflexivity]).
Defined.

(** X13. The inversion-based [ToExtended] of [ge.go], on a point with
    [Z <> 0], satisfies the cross-invariant and has the affine point of its
    input; the inversion-free [ToExtended] is that result with every
    coordinate multiplied by [Z]. *)
Theorem X13_legacy_ToExtended_on_invertible_Z (P : ProjectiveGroupElement) :
  pZ P <> Zero ->
  cross (legacy.Projective_ToExtended P) /\
  group.Extended.ToAffine (legacy.Projective_ToExtended P)
  = group.Projective.ToAffine P /\
  group.Projective.ToExtended P
  = scaleExtended (pZ P) (legacy.Projective_ToExtended P).
Proof.
  intros Hz. split; [exact (LegacyFacts.legacy_ToExtended_cross P Hz)|].
  split; [apply LegacyFacts.legacy_ToExtended_affine|].
  exact (legacy_ToExtended_scaled P Hz).
Qed.

Lemma X13_witness :
  pZ B_projective <> Zero /\
  cross (legacy.Projective_ToExtended B_projective) /\
  group.Extended.ToAffine (legacy.Projective_ToExtended B_projective)
  = group.Projective.ToAffine B_projective /\
  group.Projective.ToExtended B_projective
  = scaleExtended (pZ B_projective) (legacy.Projective_ToExtended B_projective).
Proof.
  assert (H : pZ B_projective <> Zero).
  { intros E. apply (f_equal ToBig) in E. vm_compute in E. discriminate. }
  split; [exact H|].
  apply (X13_legacy_ToExtended_on_invertible_Z B_projective H).
Defined.

(** X14. [ToProjective] returns a pointer to a newly allocated projective
    point holding the receiver's [X], [Y], [Z] (the [T] is dropped); every
    object that existed before, the receiver included, is unchanged and no
    field arithmetic is done. *)
Theorem X14_ToProjective_returns_fresh_copy
        (s : store) (v : ptr) (V : ExtendedGroupElement) :
  exts s !! v = Some V ->
  exists (q : ptr) (s' : store),
    mem.Extended.ToProjective v s = Some (q, s') /\
    projs s !! q = None /\
    projs s' !! q = Some (mkProjective (eX V) (eY V) (eZ V)) /\
    (forall l : ptr, l <> q -> projs s' !! l = projs s !! l) /\
    exts s' = exts s /\
    cost s' = cost s.
Proof.
  intros Hv.
  eexists _, _. split; [exact (Extended_ToProjective_run s v V Hv)|].
  cbn [projs exts cost]. split; [|split; [|split; [|split]]].
  - apply lookup_ge_None. lia.
  - apply lookup_fresh.
  - intros l Hl. destruct (lt_dec l (length (projs s))) as [Hl'|Hl'].
    + apply lookup_app_l. exact Hl'.
    + rewrite !lookup_ge_None_2; [reflexivity | lia |].
      rewrite length_app. cbn [length]. lia.
  - reflexivity.
  - reflexivity.
Qed.

Lemma X14_witness :
  exts store_B !! 0%nat = Some B_extended /\
  exists (q : ptr) (s' : store),
    mem.Extended.ToProjective 0%nat store_B = Some (q, s') /\
    projs store_B !! q = None /\
    projs s' !! q
    = Some (mkProjective (eX B_extended) (eY B_extended) (eZ B_extended)) /\
    (forall l : ptr, l <> q -> projs s' !! l = projs store_B !! l) /\
    exts s' = exts store_B /\
    cost s' = cost store_B.
Proof.
  split; [reflexivity|].
  apply (X14_ToProjective_returns_fresh_copy store_B 0%nat B_extended).
  reflexivity.
Defined.

(** X15. [Add] panics exactly when the receiver or one of the arguments is
    a nil (unallocated) pointer; with three allocated pointers it always
    returns. *)
Theorem X15_Add_panics_only_on_nil (s : store) (v p1 p2 : ptr) :
  mem.Extended.Add v p1 p2 s = None <->
  (exts s !! v = None \/ exts s !! p1 = None \/ exts s !! p2 = None).
Proof.
  destruct (exts s !! p1) as [P1|] eqn:H1;
    [|split; [auto | intros _; exact (Extended_Add_nil_p1 s v p1 p2 H1)]].
  destruct (exts s !! p2) as [P2|] eqn:H2;
    [|split; [auto | intros _; exact (Extended_Add_nil_p2 s v p1 p2 P1 H1 H2)]].
  destruct (exts s !! v) as [V|] eqn:Hv;
    [|split; [auto | intros _;
                     exact (Extended_Add_nil_v s v p1 p2 P1 P2 H1 H2 Hv)]].
  rewrite (Extended_Add_run s v p1 p2 V P1 P2 Hv H1 H2).
  split; [discriminate | intros [H|[H|H]]; discriminate].
Qed.

(** X16. The constants: [D] is the curve constant [-121665/121666], it is
    not zero and not a square in the field, and [twoD] is [2*D]. *)
Theorem X16_curve_constants :
  Mul (FromBig 121666) D = FromBig (-121665) /\
  D <> Zero /\
  (forall t : FieldElement, Mul t t <> D) /\
  twoD = radix51.Add D D.
Proof.
  split; [exact D_eq|]. split; [exact D_neq_Zero|].
  split; [exact D_nonsquare | exact twoD_eq].
Qed.

(** X17. The two [Zero] functions build the same point, the point [(0, 1)]
    of the curve: each converts to the other exactly, and the extended one
    is valid. *)
Theorem X17_Zero_is_the_point_0_1 :
  group.Extended.ToAffine group.Extended.Zero = (0, 1) /\
  group.Projective.ToAffine group.Projective.Zero = (0, 1) /\
  valid group.Extended.Zero /\
  group.Projective.ToExtended group.Projective.Zero = group.Extended.Zero /\
  group.Extended.ToProjective group.Extended.Zero = group.Projective.Zero.
Proof.
  split; [vm_compute; reflexivity|]. split; [vm_compute; reflexivity|].
  split; [exact Zero_valid|]. split; vm_compute; reflexivity.
Qed.

(** X18. From affine straight into the fast doubling: for canonical [x],
    [y] on the curve, [DoubleZ1] of the projective [FromAffine(x, y)]
    returns a point of the curve whose affine point is the curve's sum of
    [(x, y)] with itself.  This holds for the [FromAffine] of both files,
    since [DoubleZ1] does not read [Z]. *)
Theorem X18_FromAffine_then_DoubleZ1 (x y : Z) :
  0 <= x < p -> 0 <= y < p -> on_curve (x, y) ->
  group.Projective.DoubleZ1 (group.Projective.FromAffine x y)
  = group.Projective.DoubleZ1 (legacy.Projective_FromAffine x y) /\
  pZ (group.Projective.DoubleZ1 (group.Projective.FromAffine x y)) <> Zero /\
  valid_projective
    (group.Projective.DoubleZ1 (group.Projective.FromAffine x y)) /\
  group.Projective.ToAffine
    (group.Projective.DoubleZ1 (group.Projective.FromAffine x y))
  = edwards_add (x, y) (x, y).
Proof.
  intros Hx Hy Hc.
  assert (E : group.Projective.DoubleZ1 (group.Projective.FromAffine x y)
              = group.Projective.DoubleZ1 (legacy.Projective_FromAffine x y))
    by reflexivity.
  split; [exact E|]. rewrite E.
  assert (HA : group.Projective.ToAffine (legacy.Projective_FromAffine x y)
               = (x, y)).
  { rewrite legacy_FromAffine_ToAffine, (range_mod x Hx), (range_mod y Hy).
    reflexivity. }
  assert (HV : valid_projective (legacy.Projective_FromAffine x y)).
  { unfold valid_projective. rewrite HA. exact Hc. }
  destruct (DoubleZ1_values _ HV eq_refl) as (H1 & H2 & H3).
  rewrite HA in H3. split; [exact H1|]. split; [exact H2 | exact H3].
Qed.

Lemma X18_witness :
  on_curve (Bx, By) /\
  group.Projective.DoubleZ1 (group.Projective.FromAffine Bx By)
  = group.Projective.DoubleZ1 (legacy.Projective_FromAffine Bx By) /\
  pZ (group.Projective.DoubleZ1 (group.Projective.FromAffine Bx By)) <> Zero /\
  valid_projective
    (group.Projective.DoubleZ1 (group.Projective.FromAffine Bx By)) /\
  group.Projective.ToAffine
    (group.Projective.DoubleZ1 (group.Projective.FromAffine Bx By))
  = edwards_add (Bx, By) (Bx, By).
Proof.
  split; [vm_compute; reflexivity|].
  apply (X18_FromAffine_then_DoubleZ1 Bx By).
  - vm_compute. split; [discriminate | reflexivity].
  - vm_compute. split; [discriminate | reflexivity].
  - vm_compute. reflexivity.
Defined.

(** X19. The extended [FromAffine] checks nothing: for canonical [x], [y]
    the point it builds always has [Z = 1] and satisfies the
    cross-invariant, and it is a valid point exactly when [(x, y)] is on
    the curve. *)
Theorem X19_FromAffine_valid_iff_on_curve (x y : Z) :
  0 <= x < p -> 0 <= y < p ->
  eZ (group.Extended.FromAffine x y) = One /\
  cross (group.Extended.FromAffine x y) /\
  (valid (group.Extended.FromAffine x y) <-> on_curve (x, y)).
Proof.
  intros Hx Hy. split; [reflexivity|]. split; [apply cross_FromAffine|].
  unfold valid.
  rewrite FromAffine_ToAffine, (range_mod x Hx), (range_mod y Hy).
  split.
  - intros [_ H]. exact H.
  - intros H. split; [apply cross_FromAffine | exact H].
Qed.

Lemma X19_witness :
  eZ (group.Extended.FromAffine Bx By) = One /\
  cross (group.Extended.FromAffine Bx By) /\
  (valid (group.Extended.FromAffine Bx By) <-> on_curve (Bx, By)).
Proof.
  apply (X19_FromAffine_valid_iff_on_curve Bx By);
    vm_compute; (split; [discriminate | reflexivity]).
Defined.
